(** * Pin Fixer: the scale pipeline, the settings accessors and the hook handlers

    A shallow embedding of [src/pin-fixer.js].  The static class [PinFixer]
    reads ambient host state (the scene flags, [CONFIG.Canvas.maxZoom], the
    note layer, the document, the stage scale) and mutates note transforms and
    HUD styles.  Here the ambient state is one record, [World], and every
    method that writes becomes a function [World -> World].

    JavaScript numbers are IEEE 754 binary64 values: they are modelled by
    Rocq's primitive [float], whose operations are exactly the binary64 ones
    ([FloatAxioms] relates them to the executable specification [SpecFloat]). *)

From Stdlib Require Import ZArith Floats Lia Bool.
From stdpp Require Import gmap strings list.

Set Warnings "-inexact-float,-register-all".

(** ** JavaScript values held by scene flags *)

(** The values a flag bag can hold.  Strings are left out: the settings form
    declares [data-dtype="Number"] and [data-dtype="Boolean"] on its inputs, so
    the host stores numbers, booleans or [null] in the [pinfix] record. *)
Inductive JsValue : Type :=
  | JsUndefined
  | JsNull
  | JsBool (b : bool)
  | JsNum (n : float)
  | JsObj (props : gmap string JsValue).

Module Js.

(** [Number(v)] *)
Definition Number (v : JsValue) : float :=
  match v with
  | JsUndefined => nan
  | JsNull => 0%float
  | JsBool true => 1%float
  | JsBool false => 0%float
  | JsNum n => n
  | JsObj _ => nan
  end.

(** [Boolean(v)]: [0], [-0] and [NaN] are the falsy numbers. *)
Definition Boolean (v : JsValue) : bool :=
  match v with
  | JsUndefined | JsNull => false
  | JsBool b => b
  | JsNum n => negb (is_nan n || is_zero n)
  | JsObj _ => true
  end.

Definition nullish (v : JsValue) : bool :=
  match v with
  | JsUndefined | JsNull => true
  | _ => false
  end.

(** [v.k] on a value that is not nullish: a missing property, and any
    property of a boolean or a number, reads as [undefined]. *)
Definition get (v : JsValue) (k : string) : JsValue :=
  match v with
  | JsObj props => default JsUndefined (props !! k)
  | _ => JsUndefined
  end.

(** [v?.k] *)
Definition opt_get (v : JsValue) (k : string) : JsValue :=
  if nullish v then JsUndefined else get v k.

(** [a ?? b] *)
Definition coalesce (a b : JsValue) : JsValue :=
  if nullish a then b else a.

(** [a || b] *)
Definition or (a b : JsValue) : JsValue :=
  if Boolean a then a else b.

(** The zero with the sign bit set. *)
Definition is_neg_zero (a : float) : bool := is_zero a && get_sign a.

(** [Math.max(a, b)]: NaN when either argument is NaN, and [+0] counts as
    larger than [-0]. *)
Definition math_max (a b : float) : float :=
  if is_nan a || is_nan b then nan
  else if (a <? b)%float then b
  else if (b <? a)%float then a
  else if is_neg_zero a then b else a.

(** [Math.min(a, b)]: NaN when either argument is NaN, and [-0] counts as
    smaller than [+0]. *)
Definition math_min (a b : float) : float :=
  if is_nan a || is_nan b then nan
  else if (a <? b)%float then a
  else if (b <? a)%float then b
  else if is_neg_zero a then a else b.

End Js.

(** ** Classes of binary64 values, on [SpecFloat]'s view of a number *)

Definition sf_is_zero (s : spec_float) : bool :=
  match s with S754_zero _ => true | _ => false end.
Definition sf_is_nan (s : spec_float) : bool :=
  match s with S754_nan => true | _ => false end.
Definition sf_is_infinity (s : spec_float) : bool :=
  match s with S754_infinity _ => true | _ => false end.

(** ** Host state *)

(** [note.transform.scale] *)
Record Point := { x : float; y : float }.

Record Note := { transform_scale : Point }.

(** The value of [element.style.transform].  [CssScale s] stands for the
    text [scale(<s>)], for a finite number [s] other than [-0]: distinct
    such numbers print as distinct texts. *)
Inductive CssTransform :=
  | CssEmpty
  | CssScale (scale : float)
  | CssOther (text : string).

Record Element := { style_transform : CssTransform }.

Record World := {
  scene_flags : gmap string JsValue;   (* canvas.scene.data.flags *)
  maxZoom : float;                     (* CONFIG.Canvas.maxZoom *)
  stage_scale_x : float;               (* canvas.stage.scale.x *)
  notes : list Note;                   (* canvas.notes.objects.children *)
  document : gmap string Element       (* document.getElementById *)
}.

Definition set_notes (w : World) (ns : list Note) : World :=
  {| scene_flags := scene_flags w; maxZoom := maxZoom w;
     stage_scale_x := stage_scale_x w; notes := ns; document := document w |}.

Definition set_document (w : World) (d : gmap string Element) : World :=
  {| scene_flags := scene_flags w; maxZoom := maxZoom w;
     stage_scale_x := stage_scale_x w; notes := notes w; document := d |}.

Definition set_flags (w : World) (f : gmap string JsValue) : World :=
  {| scene_flags := f; maxZoom := maxZoom w;
     stage_scale_x := stage_scale_x w; notes := notes w; document := document w |}.

(** The number a template literal prints: [-0] prints as [0], like [+0]. *)
Definition css_number (s : float) : float :=
  if is_zero s then 0%float else s.

(** Modelled from the spec: [Math.clamped] is a helper of the host engine and
    is not part of this repository.  The spec describes it as: values outside
    the interval are pulled to the nearer bound, values inside pass through
    unchanged.  It is written the way the host composes it,
    [Math.min(max, Math.max(num, min))], which is what the spec describes on
    every interval with [lo <= hi]. *)
Definition clamped (num lo hi : float) : float :=
  Js.math_min hi (Js.math_max num lo).

(** ** The hook payloads and the scene configuration sheet *)

Record HudData := { hook : string; id : string }.

(** The [pan] argument of the [canvasPan] hook.  [updateScene] passes an
    object that has only [scale]. *)
Record Pan := { pan_x : option float; pan_y : option float; pan_scale : float }.

(** The [data] argument of [renderSceneConfig]: [data.entity] may be missing,
    and so may [data.entity.flags]. *)
Record Entity := { entity_flags : option (gmap string JsValue) }.
Record SheetData := { entity : option Entity }.

Inductive Input :=
  | Checkbox (name : string) (checked : bool)
  | TextInput (name : string) (value : JsValue).

(** The sheet markup, flattened to the sequence of its blocks.  [HostNode]
    is markup of the host, with a flag for the class [form-group]. *)
Inductive HtmlNode :=
  | HostNode (form_group : bool) (markup : string)
  | Rule
  | Heading (key : string)
  | Paragraph (key : string)
  | FormGroup (label : string) (input : Input) (desc : string).

Definition is_form_group (n : HtmlNode) : bool :=
  match n with
  | HostNode b _ => b
  | FormGroup _ _ _ => true
  | _ => false
  end.

(** [html.find(".form-group").last().after(content)]: [None] when nothing
    matches, in which case jQuery inserts nothing. *)
Fixpoint after_last_form_group (content html : list HtmlNode) : option (list HtmlNode) :=
  match html with
  | [] => None
  | n :: rest =>
      match after_last_form_group content rest with
      | Some rest' => Some (n :: rest')
      | None => if is_form_group n then Some (n :: content ++ rest) else None
      end
  end.

(** ** The class [PinFixer] *)

Module PinFixer.

Definition minCanvScale : float := 0.1%float.
Definition maxCanvScale (w : World) : float := maxZoom w.

Definition flags (w : World) : gmap string JsValue := scene_flags w.

(** [this.flags.pinfix] *)
Definition pinfix (w : World) : JsValue :=
  default JsUndefined (flags w !! "pinfix").

Definition enabled (w : World) : bool :=
  Js.Boolean (Js.opt_get (pinfix w) "enable").
Definition zoomFloor (w : World) : float :=
  Js.Number (Js.coalesce (Js.opt_get (pinfix w) "zoomFloor") (JsNum minCanvScale)).
Definition zoomCeil (w : World) : float :=
  Js.Number (Js.coalesce (Js.opt_get (pinfix w) "zoomCeil") (JsNum (maxCanvScale w))).
Definition minScale (w : World) : float :=
  Js.Number (Js.coalesce (Js.opt_get (pinfix w) "minScale") (JsNum 1)).
Definition maxScale (w : World) : float :=
  Js.Number (Js.coalesce (Js.opt_get (pinfix w) "maxScale") (JsNum 1)).
Definition hudScale (w : World) : float :=
  Js.Number (Js.coalesce (Js.opt_get (pinfix w) "hudScale") (JsNum 1)).

Definition huds : list HudData :=
  [ {| hook := "renderPinCushionHUD"; id := "pin-cushion-hud" |};
    {| hook := "renderPoiTpHUD"; id := "poi-tp-ctx-menu" |} ].

Definition reciprocal (number : float) : float := (1 / number)%float.

(** [to[0] + (s - from[0]) * (to[1] - to[0]) / (from[1] - from[0])] *)
Definition map (from to : float * float) (s : float) : float :=
  (fst to + (s - fst from) * (snd to - fst to) / (snd from - fst from))%float.

Definition clampZoom (w : World) (zoom : float) : float :=
  clamped zoom (zoomFloor w) (zoomCeil w).

Definition remapZoom (w : World) (zoom : float) : float :=
  map (zoomFloor w, zoomCeil w) (minScale w, maxScale w) zoom.

Definition noteScaleFactor (w : World) (scale : float) : float :=
  remapZoom w (clampZoom w scale).

Definition noteScaleBasic (scale : float) : float := reciprocal scale.

Definition hudScaleFactor (w : World) (scale : float) : float :=
  (noteScaleBasic scale * hudScale w)%float.

Definition noteScaleConfigured (w : World) (scale : float) : float :=
  (reciprocal scale * noteScaleFactor w scale)%float.

Definition scaleNote (note : Note) (scale : float) : Note :=
  {| transform_scale := {| x := scale; y := scale |} |}.

Definition scaleNotes (w : World) (scale : float) : World :=
  let scaled := noteScaleConfigured w scale in
  set_notes w ((fun note => scaleNote note scaled) <$> notes w).

(** [hud.style.transform = `scale(${scale})`].  The style setter keeps the
    old value when the text does not parse: [scale(Infinity)],
    [scale(-Infinity)] and [scale(NaN)] are dropped. *)
Definition scaleHUD (w : World) (hudId : string) (scale : float) : World :=
  match document w !! hudId with
  | Some hud =>
      if is_finite scale
      then set_document w
             (<[hudId := {| style_transform := CssScale (css_number scale) |}]>
                (document w))
      else w
  | None => w
  end.

Definition scaleHUDs (w : World) (scale : float) : World :=
  let hudScale := hudScaleFactor w scale in
  foldl (fun w' hud => scaleHUD w' (id hud) hudScale) w huds.

Definition resetHudScale (w : World) (hudId : string) : World :=
  match document w !! hudId with
  | Some hud => set_document w (<[hudId := {| style_transform := CssEmpty |}]> (document w))
  | None => w
  end.

Definition resetHUDs (w : World) : World :=
  foldl (fun w' hud => resetHudScale w' (id hud)) w huds.

Definition reset (w : World) : World :=
  resetHUDs (scaleNotes w 1).

Definition canvasPan (w : World) (pan : Pan) : World :=
  if negb (enabled w) then w
  else scaleHUDs (scaleNotes w (pan_scale pan)) (pan_scale pan).

Definition renderHUD (w : World) (id : string) : World :=
  if negb (enabled w) then w
  else
    let hudScale := hudScaleFactor w (stage_scale_x w) in
    scaleHUD w id hudScale.

Definition updateScene (w : World) : World :=
  if negb (enabled w) then reset w
  else canvasPan w {| pan_x := None; pan_y := None; pan_scale := stage_scale_x w |}.

(** [data.entity?.flags?.pinfix] *)
Definition entity_pinfix (data : SheetData) : JsValue :=
  match entity data with
  | None => JsUndefined
  | Some e =>
      match entity_flags e with
      | None => JsUndefined
      | Some fl => default JsUndefined (fl !! "pinfix")
      end
  end.

(** The object literal of [getSceneTemplateData]. *)
Definition defaultSettings (w : World) : JsValue :=
  JsObj (<["enable" := JsBool false]>
        (<["zoomFloor" := JsNum minCanvScale]>
        (<["zoomCeil" := JsNum (maxCanvScale w)]>
        (<["minScale" := JsNum 1]>
        (<["maxScale" := JsNum 1]>
        (<["hudScale" := JsNum 1]> ∅)))))).

(** [data.entity?.flags?.pinfix || { enable: false, ... }] *)
Definition getSceneTemplateData (w : World) (data : SheetData) : JsValue :=
  Js.or (entity_pinfix data) (defaultSettings w).

Definition getSceneHtml (settings : JsValue) : list HtmlNode :=
  [ Rule;
    Heading "pinfix.title";
    Paragraph "pinfix.description";
    FormGroup "pinfix.enable.name"
      (Checkbox "flags.pinfix.enable" (Js.Boolean (Js.get settings "enable")))
      "pinfix.enable.desc";
    FormGroup "pinfix.minScale.name"
      (TextInput "flags.pinfix.minScale" (Js.get settings "minScale"))
      "pinfix.minScale.desc";
    FormGroup "pinfix.maxScale.name"
      (TextInput "flags.pinfix.maxScale" (Js.get settings "maxScale"))
      "pinfix.maxScale.desc";
    FormGroup "pinfix.zoomFloor.name"
      (TextInput "flags.pinfix.zoomFloor" (Js.get settings "zoomFloor"))
      "pinfix.zoomFloor.desc";
    FormGroup "pinfix.zoomCeil.name"
      (TextInput "flags.pinfix.zoomCeil" (Js.get settings "zoomCeil"))
      "pinfix.zoomCeil.desc";
    FormGroup "pinfix.hudScale.name"
      (TextInput "flags.pinfix.hudScale" (Js.get settings "hudScale"))
      "pinfix.hudScale.desc" ].

Definition renderSceneConfig (w : World) (html : list HtmlNode) (data : SheetData)
  : list HtmlNode :=
  default html
    (after_last_form_group (getSceneHtml (getSceneTemplateData w data)) html).

End PinFixer.

(** ** Scenes used to state the properties *)

(** The record under [flags.pinfix], as an object when there is one. *)
Definition pinfix_props (w : World) : gmap string JsValue :=
  match PinFixer.pinfix w with
  | JsObj props => props
  | _ => ∅
  end.

(** What submitting the settings form does to one field,
    [flags.pinfix.<field> = v]. *)
Definition set_pinfix_field (w : World) (field : string) (v : JsValue) : World :=
  set_flags w (<["pinfix" := JsObj (<[field := v]> (pinfix_props w))]> (scene_flags w)).

(** A scene whose only flag is the [pinfix] record [cfg]. *)
Definition scene_with (cfg : gmap string JsValue) (mz sx : float)
    (ns : list Note) (doc : gmap string Element) : World :=
  {| scene_flags := {[ "pinfix" := JsObj cfg ]}; maxZoom := mz;
     stage_scale_x := sx; notes := ns; document := doc |}.

(** [zoomFloor=0.1, zoomCeil=2.0, minScale=1, maxScale=0.5] *)
Definition cfg_shrinking : gmap string JsValue :=
  <["zoomFloor" := JsNum 0.1]>
  (<["zoomCeil" := JsNum 2.0]>
  (<["minScale" := JsNum 1]>
  (<["maxScale" := JsNum 0.5]> ∅))).

(** A field of the [pinfix] record is absent when the record is missing or
    [null], or when the field itself is missing or [null]. *)
Definition absent (w : World) (field : string) : bool :=
  Js.nullish (PinFixer.pinfix w) || Js.nullish (Js.get (PinFixer.pinfix w) field).

(** A note is scaled uniformly when both components of its scale agree. *)
Definition uniform (n : Note) : Prop :=
  x (transform_scale n) = y (transform_scale n).

Definition note_at (s : float) : Note :=
  {| transform_scale := {| x := s; y := s |} |}.

Definition hud_element (t : CssTransform) : Element :=
  {| style_transform := t |}.

(** A scene with scaling switched off, one note drawn three times its size
    and the Pin Cushion HUD mounted at half size. *)
Definition scene_disabled (cfg : gmap string JsValue) : World :=
  scene_with (<["enable" := JsBool false]> cfg) 3 1
    [note_at 3] {[ "pin-cushion-hud" := hud_element (CssScale 0.5) ]}.

(** A scene with scaling switched on, the stage at zoom 2, one note drawn
    three times its size and both known HUDs mounted at half size. *)
Definition scene_enabled (cfg : gmap string JsValue) : World :=
  scene_with (<["enable" := JsBool true]> cfg) 3 2
    [note_at 3]
    (<["pin-cushion-hud" := hud_element (CssScale 0.5)]>
       {[ "poi-tp-ctx-menu" := hud_element (CssScale 0.5) ]}).

(** [minScale = maxScale = 1] on the one-point interval
    [zoomFloor = zoomCeil = 1]. *)
Definition cfg_degenerate : gmap string JsValue :=
  <["zoomFloor" := JsNum 1]>
  (<["zoomCeil" := JsNum 1]>
  (<["minScale" := JsNum 1]>
  (<["maxScale" := JsNum 1]> ∅))).

(** [minScale = maxScale = 1] on an interval so wide that its width
    overflows. *)
Definition cfg_overflowing : gmap string JsValue :=
  <["zoomFloor" := JsNum (-1e308)]>
  (<["zoomCeil" := JsNum 1e308]>
  (<["minScale" := JsNum 1]>
  (<["maxScale" := JsNum 1]> ∅))).

(** [minScale = maxScale = 1] on [[0.5, 3]]. *)
Definition cfg_reciprocal : gmap string JsValue :=
  <["zoomFloor" := JsNum 0.5]>
  (<["zoomCeil" := JsNum 3]>
  (<["minScale" := JsNum 1]>
  (<["maxScale" := JsNum 1]> ∅))).

(** A scene configuration sheet with a single form group of the host. *)
Definition sheet_one_group : list HtmlNode :=
  [HostNode true "<div class='form-group'></div>"].

Definition no_entity : SheetData := {| entity := None |}.

(** The record the spec's table of defaults describes, for the host state
    [w]: [enable] false, [zoomFloor] 0.1, [zoomCeil] the maximum canvas zoom,
    [minScale], [maxScale] and [hudScale] 1, and no other field. *)
Definition full_default_record (w : World) (v : JsValue) : Prop :=
  Js.get v "enable" = JsBool false
  /\ Js.get v "zoomFloor" = JsNum 0.1
  /\ Js.get v "zoomCeil" = JsNum (maxZoom w)
  /\ Js.get v "minScale" = JsNum 1
  /\ Js.get v "maxScale" = JsNum 1
  /\ Js.get v "hudScale" = JsNum 1
  /\ forall k,
       k ∉ ["enable"; "zoomFloor"; "zoomCeil"; "minScale"; "maxScale"; "hudScale"] ->
       Js.get v k = JsUndefined.

(** The input a sheet shows under a field name. *)
Definition input_name (i : Input) : string :=
  match i with
  | Checkbox name _ => name
  | TextInput name _ => name
  end.

Fixpoint shown_input (html : list HtmlNode) (name : string) : option Input :=
  match html with
  | [] => None
  | FormGroup _ i _ :: rest =>
      if String.eqb (input_name i) name then Some i else shown_input rest name
  | _ :: rest => shown_input rest name
  end.

(** The sheet data of a scene whose [pinfix] record has only [enable]. *)
Definition sheet_partial : SheetData :=
  {| entity :=
       Some {| entity_flags :=
                 Some {[ "pinfix" := JsObj {[ "enable" := JsBool true ]} ]} |} |}.

(** ** The HUD elements and the hooks of the module *)

(** The element ids of the known HUDs, in the order [huds.forEach] visits
    them. *)
Definition hud_ids : list string := id <$> PinFixer.huds.

(** The document after every mounted known HUD got the transform [t]. *)
Definition restyle (t : CssTransform) (doc : gmap string Element) : gmap string Element :=
  foldl (fun d k => alter (fun _ => hud_element t) k d) doc hud_ids.

(** The document after [scaleHUDs] asked for the scale [h]: a scale that is
    not finite is dropped by the style setter. *)
Definition rescale (h : float) (doc : gmap string Element) : gmap string Element :=
  if is_finite h then restyle (CssScale (css_number h)) doc else doc.

Module Hooks.

(** The callbacks the module hands to [Hooks.on]. *)
Inductive Callback :=
  | CanvasPanCallback
  | RenderSceneConfigCallback
  | UpdateSceneCallback
  | RenderHUDCallback (hudId : string).

(** [Hooks.on(name, callback)] *)
Definition on (name : string) (cb : Callback)
    (registry : list (string * Callback)) : list (string * Callback) :=
  registry ++ [(name, cb)].

(** [PinFixer.createHudHooks()] *)
Definition createHudHooks (registry : list (string * Callback))
    : list (string * Callback) :=
  foldl (fun r hud => on (hook hud) (RenderHUDCallback (id hud)) r)
    registry PinFixer.huds.

(** The registry after the module's script has run. *)
Definition registered : list (string * Callback) :=
  createHudHooks
    (on "updateScene" UpdateSceneCallback
      (on "renderSceneConfig" RenderSceneConfigCallback
        (on "canvasPan" CanvasPanCallback []))).

(** The host firing the render hook [name] of a HUD: each callback
    registered under that name runs in turn.  [renderHUD] ignores the
    [hud], [html] and [data] arguments the host passes. *)
Definition callHudHook (name : string) (w : World) : World :=
  foldl (fun w' entry =>
           if String.eqb (fst entry) name
           then match snd entry with
                | RenderHUDCallback hudId => PinFixer.renderHUD w' hudId
                | _ => w'
                end
           else w')
    w registered.

End Hooks.

(** Two states of the host with the same settings: the same scene flags,
    the same maximum zoom and the same stage scale. *)
Definition same_config (w w' : World) : Prop :=
  scene_flags w' = scene_flags w
  /\ maxZoom w' = maxZoom w
  /\ stage_scale_x w' = stage_scale_x w.

(** * Facts about binary64 arithmetic

    The primitive operations are related to [SpecFloat] by [FloatAxioms];
    the lemmas below are proved on the specification and carried back. *)

Module F64.

Lemma SFcompare_refl_finite s m e :
  SFcompare (S754_finite s m e) (S754_finite s m e) = Some Eq.
Proof.
  simpl. rewrite Z.compare_refl, Pos.compare_cont_refl. now destruct s.
Qed.

Lemma is_nan_spec f : is_nan f = sf_is_nan (Prim2SF f).
Proof.
  unfold is_nan. rewrite FloatAxioms.eqb_spec. unfold SFeqb.
  destruct (Prim2SF f) as [s|s| |s m e]; try (now destruct s).
  - reflexivity.
  - now rewrite SFcompare_refl_finite.
Qed.

Lemma is_infinity_spec f : is_infinity f = sf_is_infinity (Prim2SF f).
Proof.
  unfold is_infinity. rewrite FloatAxioms.eqb_spec, abs_spec.
  change (Prim2SF infinity) with (S754_infinity false).
  now destruct (Prim2SF f) as [s|s| |s m e].
Qed.

Lemma is_zero_spec f : is_zero f = sf_is_zero (Prim2SF f).
Proof.
  unfold is_zero. rewrite FloatAxioms.eqb_spec.
  change (Prim2SF zero) with (S754_zero false).
  destruct (Prim2SF f) as [s|s| |s m e]; try (now destruct s).
  reflexivity.
Qed.

Lemma is_finite_spec f :
  is_finite f = negb (sf_is_nan (Prim2SF f) || sf_is_infinity (Prim2SF f)).
Proof. unfold is_finite. now rewrite is_nan_spec, is_infinity_spec. Qed.

Ltac cmp_cases :=
  repeat match goal with
    | |- context [Z.compare ?a ?b] => destruct (Z.compare_spec a b)
    | H : context [Z.compare ?a ?b] |- _ => destruct (Z.compare_spec a b)
    | |- context [Pos.compare ?a ?b] => destruct (Pos.compare_spec a b)
    | H : context [Pos.compare ?a ?b] |- _ => destruct (Pos.compare_spec a b)
    end.

Ltac sf_order :=
  unfold SFltb, SFleb, SFeqb, SFcompare;
  repeat match goal with
    | |- context [match ?s with S754_zero _ => _ | _ => _ end] => destruct s
    | s : bool |- _ => destruct s
    end;
  simpl; rewrite ?Pos.compare_cont_spec; simpl;
  intros; try discriminate; try reflexivity;
  cmp_cases; simpl in *; subst; try discriminate; try reflexivity; try lia.

Lemma SFleb_not_ltb a b : SFleb a b = true -> SFltb b a = false.
Proof. revert a b. intros [s|s| |s m e] [s'|s'| |s' m' e']; sf_order. Qed.


Lemma Prim2SF_one : Prim2SF 1 = S754_finite false 4503599627370496 (-52).
Proof. reflexivity. Qed.

Lemma SFmul_one_r x :
  valid_binary x = true -> SF64mul x (Prim2SF 1) = x.
Proof.
  rewrite Prim2SF_one.
  destruct x as [s|s| |s m e]; simpl; intros Hv;
    rewrite ?xorb_false_r; try reflexivity.
  unfold bounded, canonical_mantissa in Hv.
  apply andb_prop in Hv as [Hc Hb]. apply Z.eqb_eq in Hc.
  unfold binary_round_aux, shr_fexp.
  rewrite (Pos.mul_comm m).
  change (4503599627370496 * m)%positive with (Pos.iter xO m 52).
  cbn [Pos.iter Zdigits2 digits2_pos].
  match goal with
  | |- context [fexp prec emax (?a + (e + -52))] =>
      replace (a + (e + -52))%Z with (Z.pos (digits2_pos m) + e)%Z by lia
  end.
  rewrite Hc. replace (e - (e + -52))%Z with 52%Z by lia.
  cbn [shr shr_record_of_loc SpecFloat.iter_pos shr_1 orb].
  cbn [shr_m loc_of_shr_record round_nearest_even Zdigits2].
  replace (e + -52 + 52)%Z with e by lia.
  rewrite Hc, Z.sub_diag. cbn [shr shr_m shr_record_of_loc].
  now rewrite Hb.
Qed.

Lemma mul_one_r (f : float) : (f * 1)%float = f.
Proof.
  apply Prim2SF_inj. rewrite mul_spec.
  apply SFmul_one_r, Prim2SF_valid.
Qed.

(** *** Rounding never flushes a non-zero mantissa whose exponent is at least [emin] *)

Lemma digits2_pos_bounds m :
  (2 ^ (Z.pos (digits2_pos m) - 1) <= Z.pos m < 2 ^ Z.pos (digits2_pos m))%Z.
Proof.
  induction m as [m IH|m IH|]; cbn [digits2_pos].
  - rewrite Pos2Z.inj_succ, Z.pow_succ_r by lia.
    replace (Z.succ (Z.pos (digits2_pos m)) - 1)%Z
      with (Z.succ (Z.pos (digits2_pos m) - 1)) by lia.
    rewrite Z.pow_succ_r by lia. lia.
  - rewrite Pos2Z.inj_succ, Z.pow_succ_r by lia.
    replace (Z.succ (Z.pos (digits2_pos m)) - 1)%Z
      with (Z.succ (Z.pos (digits2_pos m) - 1)) by lia.
    rewrite Z.pow_succ_r by lia. lia.
  - simpl. lia.
Qed.

Lemma shr_1_m r : (0 <= shr_m r)%Z -> shr_m (shr_1 r) = (shr_m r / 2)%Z.
Proof.
  destruct r as [m b c]; cbn [shr_m shr_1]. intros Hm.
  destruct m as [|[p|p|]|p]; cbn [shr_m]; try lia.
  - reflexivity.
  - rewrite Pos2Z.inj_xI. apply Z.div_unique with (r := 1%Z); lia.
  - rewrite Pos2Z.inj_xO. apply Z.div_unique with (r := 0%Z); lia.
  - reflexivity.
Qed.

Lemma iter_shr_1_m p : forall r,
  (0 <= shr_m r)%Z ->
  shr_m (SpecFloat.iter_pos shr_1 p r) = (shr_m r / 2 ^ Z.pos p)%Z.
Proof.
  induction p as [p IH|p IH|]; intros r Hr; cbn [SpecFloat.iter_pos].
  - assert (H1 : (0 <= shr_m (shr_1 r))%Z).
    { rewrite shr_1_m by assumption. apply Z.div_pos; lia. }
    assert (H2 : (0 <= shr_m (SpecFloat.iter_pos shr_1 p (shr_1 r)))%Z).
    { rewrite IH by assumption. apply Z.div_pos; lia. }
    rewrite IH, IH, shr_1_m by assumption.
    rewrite !Z.div_div by lia.
    f_equal. rewrite <- Z.pow_add_r, <- Z.pow_succ_r by lia.
    f_equal. lia.
  - assert (H2 : (0 <= shr_m (SpecFloat.iter_pos shr_1 p r))%Z).
    { rewrite IH by assumption. apply Z.div_pos; lia. }
    rewrite IH, IH by assumption.
    rewrite !Z.div_div by lia.
    f_equal. rewrite <- Z.pow_add_r by lia. f_equal. lia.
  - now rewrite shr_1_m.
Qed.

Lemma shr_record_of_loc_m m l : shr_m (shr_record_of_loc m l) = m.
Proof. now destruct l as [|[]]. Qed.

Lemma shr_fexp_pos m e l :
  (1 <= m)%Z -> (emin <= e)%Z ->
  (1 <= shr_m (fst (shr_fexp prec emax m e l)))%Z /\
  (emin <= snd (shr_fexp prec emax m e l))%Z.
Proof.
  intros Hm He. unfold shr_fexp.
  destruct m as [|m|m]; try lia. cbn [Zdigits2].
  pose proof (digits2_pos_bounds m) as [Hd _].
  set (d := Z.pos (digits2_pos m)) in *.
  unfold shr.
  destruct (fexp prec emax (d + e) - e)%Z as [|n|n] eqn:Hn; cbn [fst snd].
  - rewrite shr_record_of_loc_m. lia.
  - rewrite iter_shr_1_m; rewrite shr_record_of_loc_m; try lia.
    assert (Hnd : (Z.pos n <= d - 1)%Z).
    { unfold fexp, SpecFloat.emin, prec, emax in *. lia. }
    split; [|lia].
    apply Z.div_le_lower_bound; [lia|].
    rewrite Z.mul_1_r.
    transitivity (2 ^ (d - 1))%Z; [|assumption].
    apply Z.pow_le_mono_r; lia.
  - rewrite shr_record_of_loc_m. lia.
Qed.

Lemma round_nearest_even_ge m l : (m <= round_nearest_even m l)%Z.
Proof.
  destruct l as [|[]]; cbn [round_nearest_even]; try lia.
  destruct (Z.even m); lia.
Qed.

Lemma binary_round_aux_nonzero s m e l :
  (1 <= m)%Z -> (emin <= e)%Z ->
  sf_is_zero (binary_round_aux prec emax s m e l) = false /\
  sf_is_nan (binary_round_aux prec emax s m e l) = false.
Proof.
  intros Hm He. unfold binary_round_aux.
  destruct (shr_fexp_pos m e l Hm He) as [H1 H2].
  destruct (shr_fexp prec emax m e l) as [r1 e1]; cbn [fst snd] in *.
  pose proof (round_nearest_even_ge (shr_m r1) (loc_of_shr_record r1)) as Hr.
  set (m2 := round_nearest_even (shr_m r1) (loc_of_shr_record r1)) in *.
  assert (Hm2 : (1 <= m2)%Z) by lia.
  destruct (shr_fexp_pos m2 e1 loc_Exact Hm2 H2) as [H3 H4].
  destruct (shr_fexp prec emax m2 e1 loc_Exact) as [r3 e3]; cbn [fst snd] in *.
  destruct (shr_m r3) as [|p|p]; try lia.
  now destruct (e3 <=? emax - prec)%Z.
Qed.

Lemma iter_xO_Z d : forall m, Z.pos (Pos.iter xO m d) = (Z.pos m * 2 ^ Z.pos d)%Z.
Proof.
  induction d as [|d IH] using Pos.peano_ind; intros m.
  - cbn [Pos.iter]. lia.
  - rewrite Pos.iter_succ, Pos2Z.inj_xO, IH, Pos2Z.inj_succ, Z.pow_succ_r by lia.
    lia.
Qed.

Lemma shl_align_Z m e e' :
  (e' <= e)%Z ->
  Z.pos (fst (shl_align m e e')) = (Z.pos m * 2 ^ (e - e'))%Z.
Proof.
  intros He. unfold shl_align.
  destruct (e' - e)%Z as [|d|d] eqn:Hd; cbn [fst].
  - replace (e - e')%Z with 0%Z by lia. lia.
  - lia.
  - rewrite iter_xO_Z. f_equal. f_equal. lia.
Qed.

Lemma shl_align_exp m e e' : (emin <= e)%Z -> (emin <= e')%Z ->
  (emin <= snd (shl_align m e e'))%Z.
Proof.
  intros. unfold shl_align. now destruct (e' - e)%Z.
Qed.

Lemma binary_round_nonzero s m e :
  (emin <= e)%Z ->
  sf_is_zero (binary_round prec emax s m e) = false /\
  sf_is_nan (binary_round prec emax s m e) = false.
Proof.
  intros He. unfold binary_round.
  assert (Hf : (emin <= fexp prec emax (Z.pos (digits2_pos m) + e))%Z).
  { unfold fexp. lia. }
  pose proof (shl_align_exp m e _ He Hf) as Hs.
  destruct (shl_align m e (fexp prec emax (Z.pos (digits2_pos m) + e)))
    as [mz ez]; cbn [snd] in Hs.
  apply binary_round_aux_nonzero; lia.
Qed.

Lemma binary_normalize_nonzero m e :
  m <> 0%Z -> (emin <= e)%Z ->
  sf_is_zero (binary_normalize prec emax m e false) = false /\
  sf_is_nan (binary_normalize prec emax m e false) = false.
Proof.
  intros Hm He. destruct m as [|m|m]; [congruence| |];
    now apply binary_round_nonzero.
Qed.

Lemma valid_finite_bounds s m e :
  valid_binary (S754_finite s m e) = true ->
  (emin <= e)%Z /\ (Z.pos m < 2 ^ 53)%Z /\
  ((emin < e)%Z -> (2 ^ 52 <= Z.pos m)%Z).
Proof.
  cbn [SpecFloat.valid_binary]. unfold bounded, canonical_mantissa.
  intros H. apply andb_prop in H as [Hc _]. apply Z.eqb_eq in Hc.
  pose proof (digits2_pos_bounds m) as [Hlo Hhi].
  set (d := Z.pos (digits2_pos m)) in *.
  unfold fexp, SpecFloat.emin, prec, emax in *.
  assert (Hd : (d <= 53)%Z) by lia.
  split; [lia|]. split.
  - eapply Z.lt_le_trans; [exact Hhi|]. apply Z.pow_le_mono_r; lia.
  - intros He. assert (d = 53)%Z by lia. subst d.
    replace 52%Z with (Z.pos (digits2_pos m) - 1)%Z by lia. exact Hlo.
Qed.

(** Subtracting a smaller binary64 value from a larger one never gives
    zero (gradual underflow) nor NaN. *)
Lemma SFsub_ltb_nonzero f c :
  valid_binary f = true -> valid_binary c = true ->
  SFltb f c = true ->
  sf_is_zero (SF64sub c f) = false /\ sf_is_nan (SF64sub c f) = false.
Proof.
  intros Hf Hc Hlt.
  destruct f as [sf|sf| |sf mf ef], c as [sc|sc| |sc mc ec];
    try (revert Hlt; unfold SFltb; cbn; repeat match goal with s : bool |- _ => destruct s end; cbn; intros; (discriminate || (split; reflexivity))).
  unfold SF64sub, SFsub.
  pose proof (valid_finite_bounds _ _ _ Hf) as (Hef & Hmf & Hnf).
  pose proof (valid_finite_bounds _ _ _ Hc) as (Hec & Hmc & Hnc).
  apply binary_normalize_nonzero; [|lia].
  rewrite !shl_align_Z by lia.
  revert Hlt. unfold SFltb, SFcompare. rewrite Pos.compare_cont_spec.
  assert (Hpow : forall k, (1 <= k)%Z -> (2 <= 2 ^ k)%Z).
  { intros k Hk. change 2%Z with (2 ^ 1)%Z at 1. apply Z.pow_le_mono_r; lia. }
  destruct (Z.compare_spec ef ec) as [He|He|He].
  - subst ec. rewrite Z.min_id, Z.sub_diag, !Z.mul_1_r.
    destruct (Pos.compare_spec mf mc); destruct sf, sc; intros Hlt;
      simpl in Hlt; unfold cond_Zopp; try discriminate; lia.
  - rewrite Z.min_r by lia. rewrite Z.sub_diag, Z.mul_1_r.
    specialize (Hpow (ec - ef)%Z ltac:(lia)).
    specialize (Hnc ltac:(lia)).
    destruct sf, sc; intros Hlt; simpl in Hlt; unfold cond_Zopp;
      try discriminate; nia.
  - rewrite Z.min_l by lia. rewrite Z.sub_diag, Z.mul_1_r.
    specialize (Hpow (ef - ec)%Z ltac:(lia)).
    specialize (Hnf ltac:(lia)).
    destruct sf, sc; intros Hlt; simpl in Hlt; unfold cond_Zopp;
      try discriminate; nia.
Qed.

Lemma sub_ltb_nonzero (f c : float) :
  (f <? c)%float = true ->
  is_zero (c - f) = false /\ is_nan (c - f) = false.
Proof.
  rewrite ltb_spec, is_zero_spec, is_nan_spec, sub_spec.
  apply SFsub_ltb_nonzero; apply Prim2SF_valid.
Qed.

(** *** Zeros, infinities and NaN through the four operations *)

Lemma leb_not_ltb (a b : float) : (a <=? b)%float = true -> (b <? a)%float = false.
Proof. rewrite leb_spec, ltb_spec. apply SFleb_not_ltb. Qed.


Lemma mul_finite_zero (d z : float) :
  is_finite d = true -> is_zero z = true -> is_zero (d * z) = true.
Proof.
  rewrite is_finite_spec, !is_zero_spec, mul_spec.
  now destruct (Prim2SF d), (Prim2SF z).
Qed.

Lemma div_zero_l (q r : float) :
  is_zero q = true -> is_zero r = false -> is_nan r = false ->
  is_zero (q / r) = true.
Proof.
  rewrite !is_zero_spec, is_nan_spec, div_spec.
  now destruct (Prim2SF q), (Prim2SF r).
Qed.

Lemma add_zero_r (a q : float) :
  is_zero q = true -> is_zero a = false -> (a + q)%float = a.
Proof.
  rewrite !is_zero_spec. intros Hq Ha.
  apply Prim2SF_inj. rewrite add_spec.
  now destruct (Prim2SF q), (Prim2SF a).
Qed.

Lemma sub_eqb (a b : float) :
  (a =? b)%float = true -> is_zero (b - a) = true \/ is_nan (b - a) = true.
Proof.
  rewrite FloatAxioms.eqb_spec, is_zero_spec, is_nan_spec, sub_spec.
  unfold SFeqb.
  destruct (Prim2SF a) as [s|s| |s m e], (Prim2SF b) as [s'|s'| |s' m' e'];
    try (cbn; repeat match goal with s : bool |- _ => destruct s end; cbn;
         intros; (discriminate || (left; reflexivity) || (right; reflexivity))).
  intros H.
  assert (E : s = s' /\ e = e' /\ m = m').
  { revert H. unfold SFcompare. rewrite Pos.compare_cont_spec.
    destruct (Z.compare_spec e e'), (Pos.compare_spec m m'), s, s';
      cbn; intros; try discriminate; auto. }
  destruct E as (-> & -> & ->). left.
  unfold SF64sub, SFsub. now rewrite Z.sub_diag.
Qed.

Lemma div_by_zero_or_nan (n d : float) :
  is_zero d = true \/ is_nan d = true -> is_finite (n / d) = false.
Proof.
  rewrite is_zero_spec, is_nan_spec, is_finite_spec, div_spec.
  destruct (Prim2SF n), (Prim2SF d); cbn; intuition congruence.
Qed.

Lemma add_not_finite_r (a b : float) :
  is_finite b = false -> is_finite (a + b) = false.
Proof.
  rewrite !is_finite_spec, add_spec.
  destruct (Prim2SF a) as [s|s| |s m e], (Prim2SF b) as [s'|s'| |s' m' e'];
    cbn; try destruct s; try destruct s'; cbn; congruence.
Qed.

(** *** More on zeros and infinities *)

Lemma sub_self_finite (f : float) :
  is_finite f = true -> is_zero (f - f) = true.
Proof.
  rewrite is_finite_spec, is_zero_spec, sub_spec.
  destruct (Prim2SF f) as [s|s| |s m e]; cbn [sf_is_nan sf_is_infinity];
    try discriminate; intros _.
  - now destruct s.
  - unfold SF64sub, SFsub. now rewrite Z.sub_diag.
Qed.

Lemma mul_zero_finite (z d : float) :
  is_zero z = true -> is_finite d = true -> is_zero (z * d) = true.
Proof.
  rewrite is_finite_spec, !is_zero_spec, mul_spec.
  now destruct (Prim2SF d), (Prim2SF z).
Qed.

Lemma add_zero_eqb (a q : float) :
  is_zero q = true -> is_nan a = false -> (a + q =? a)%float = true.
Proof.
  rewrite is_zero_spec, is_nan_spec, FloatAxioms.eqb_spec, add_spec.
  unfold SFeqb.
  destruct (Prim2SF q) as [sq|sq| |sq mq eq]; try discriminate.
  destruct (Prim2SF a) as [s|s| |s m e]; try discriminate; intros _ _.
  - now destruct s, sq.
  - now destruct s.
  - cbn [SF64add SFadd]. now rewrite SFcompare_refl_finite.
Qed.

Lemma sub_finite_r (a b : float) :
  is_finite (a - b) = true -> is_finite b = true.
Proof.
  rewrite !is_finite_spec, sub_spec.
  destruct (Prim2SF a) as [s|s| |s m e], (Prim2SF b) as [s'|s'| |s' m' e'];
    cbn; try destruct s; try destruct s'; cbn; congruence.
Qed.

Lemma finite_not_nan (a : float) : is_finite a = true -> is_nan a = false.
Proof.
  unfold is_finite. intros H. apply negb_true_iff, orb_false_iff in H. tauto.
Qed.

(** The reciprocal of a zero is an infinity, that of NaN is NaN, and
    neither becomes finite again by a multiplication. *)
Lemma reciprocal_mul_not_finite (z y : float) :
  is_zero z = true \/ is_nan z = true -> is_finite (1 / z * y) = false.
Proof.
  rewrite is_zero_spec, is_nan_spec, is_finite_spec, mul_spec, div_spec.
  rewrite Prim2SF_one.
  destruct (Prim2SF z) as [s|s| |s m e], (Prim2SF y) as [s'|s'| |s' m' e'];
    cbn; intuition congruence.
Qed.

(** *** Order facts used for [Math.min] and [Math.max] *)


Lemma SFleb_zero_l a b c :
  sf_is_zero a = true -> sf_is_zero b = true ->
  SFleb b c = true -> SFleb a c = true.
Proof.
  revert a b c.
  intros [s|s| |s m e] [s'|s'| |s' m' e'] [s''|s''| |s'' m'' e'']; sf_order.
Qed.


Lemma leb_not_nan (a b : float) :
  (a <=? b)%float = true -> is_nan a = false /\ is_nan b = false.
Proof.
  rewrite leb_spec, !is_nan_spec. unfold SFleb.
  destruct (Prim2SF a), (Prim2SF b); cbn; intros; (discriminate || auto).
Qed.

Lemma leb_not_ltb_eqb (a b : float) :
  (a <=? b)%float = true -> (a <? b)%float = false -> (a =? b)%float = true.
Proof.
  rewrite leb_spec, ltb_spec, FloatAxioms.eqb_spec. unfold SFleb, SFltb, SFeqb.
  now destruct (SFcompare (Prim2SF a) (Prim2SF b)) as [[]|].
Qed.

Lemma eqb_zero (a b : float) :
  (a =? b)%float = true -> is_zero a = true -> is_zero b = true.
Proof.
  rewrite FloatAxioms.eqb_spec, !is_zero_spec. unfold SFeqb.
  destruct (Prim2SF a) as [s|s| |s m e], (Prim2SF b) as [s'|s'| |s' m' e'];
    cbn; try destruct s; try destruct s'; cbn; congruence.
Qed.

Lemma eqb_sym (a b : float) : (a =? b)%float = (b =? a)%float.
Proof.
  rewrite !FloatAxioms.eqb_spec.
  generalize (Prim2SF a) (Prim2SF b).
  intros [s|s| |s m e] [s'|s'| |s' m' e']; unfold SFeqb; sf_order.
Qed.



Lemma leb_zero_l (a b c : float) :
  is_zero a = true -> is_zero b = true ->
  (b <=? c)%float = true -> (a <=? c)%float = true.
Proof. rewrite !is_zero_spec, !leb_spec. apply SFleb_zero_l. Qed.

Lemma sub_zero_l_finite (c lo : float) :
  is_zero c = true -> is_finite lo = true -> is_finite (c - lo) = true.
Proof.
  rewrite is_zero_spec, !is_finite_spec, sub_spec.
  destruct (Prim2SF c) as [s|s| |s m e], (Prim2SF lo) as [s'|s'| |s' m' e'];
    cbn; try destruct s; try destruct s'; cbn; congruence.
Qed.



End F64.

(** * The scale pipeline *)


Lemma is_neg_zero_is_zero a : Js.is_neg_zero a = true -> is_zero a = true.
Proof. unfold Js.is_neg_zero. now intros [H _]%andb_prop. Qed.

Lemma math_max_above (z lo : float) :
  (lo <=? z)%float = true ->
  Js.math_max z lo = z \/ (is_zero z = true /\ is_zero (Js.math_max z lo) = true).
Proof.
  intros Hle. destruct (F64.leb_not_nan _ _ Hle) as [Hlo Hz].
  unfold Js.math_max. rewrite Hlo, Hz, (F64.leb_not_ltb _ _ Hle). cbn [orb].
  destruct (lo <? z)%float eqn:Hlt; [now left|].
  destruct (Js.is_neg_zero z) eqn:Hneg; [|now left].
  right. apply is_neg_zero_is_zero in Hneg. split; [exact Hneg|].
  apply (F64.eqb_zero z); [|exact Hneg].
  rewrite F64.eqb_sym. now apply F64.leb_not_ltb_eqb.
Qed.

Lemma math_min_below (hi m : float) :
  (m <=? hi)%float = true ->
  Js.math_min hi m = m \/ (is_zero m = true /\ is_zero (Js.math_min hi m) = true).
Proof.
  intros Hle. destruct (F64.leb_not_nan _ _ Hle) as [Hm Hhi].
  unfold Js.math_min. rewrite Hm, Hhi, (F64.leb_not_ltb _ _ Hle). cbn [orb].
  destruct (m <? hi)%float eqn:Hlt; [now left|].
  destruct (Js.is_neg_zero hi) eqn:Hneg; [|now left].
  right. apply is_neg_zero_is_zero in Hneg. split; [|exact Hneg].
  apply (F64.eqb_zero hi); [|exact Hneg].
  rewrite F64.eqb_sym. now apply F64.leb_not_ltb_eqb.
Qed.

Lemma clamped_inside (z lo hi : float) :
  (lo <=? z)%float = true -> (z <=? hi)%float = true ->
  clamped z lo hi = z \/ (is_zero z = true /\ is_zero (clamped z lo hi) = true).
Proof.
  intros Hlo Hhi. unfold clamped.
  destruct (math_max_above z lo Hlo) as [->|[Hz Hm]].
  - now apply math_min_below.
  - right. split; [exact Hz|].
    assert (Hle : (Js.math_max z lo <=? hi)%float = true)
      by now apply (F64.leb_zero_l _ z).
    destruct (math_min_below hi _ Hle) as [->|[_ H]]; assumption.
Qed.



Section Pipeline.

Variable w : World.

Let lo := PinFixer.zoomFloor w.
Let hi := PinFixer.zoomCeil w.




Lemma clampZoom_inside_sub_finite zoom :
  (lo <=? zoom)%float = true -> (zoom <=? hi)%float = true ->
  is_finite (zoom - lo) = true ->
  is_finite (PinFixer.clampZoom w zoom - lo) = true.
Proof.
  intros H1 H2 Hfin. unfold PinFixer.clampZoom. fold lo hi.
  destruct (clamped_inside zoom lo hi H1 H2) as [->|[Hz Hc]]; [exact Hfin|].
  apply F64.sub_zero_l_finite; [exact Hc|].
  now apply F64.sub_finite_r in Hfin.
Qed.



End Pipeline.


(** * HUD scale *)

Lemma pinfix_set_field w field v :
  PinFixer.pinfix (set_pinfix_field w field v)
  = JsObj (<[field := v]> (pinfix_props w)).
Proof.
  unfold PinFixer.pinfix, PinFixer.flags, set_pinfix_field. cbn.
  now rewrite lookup_insert_eq.
Qed.

Lemma opt_get_pinfix_props w k :
  Js.opt_get (PinFixer.pinfix w) k = default JsUndefined (pinfix_props w !! k).
Proof.
  unfold pinfix_props, Js.opt_get.
  destruct (PinFixer.pinfix w); cbn; try reflexivity.
Qed.

Lemma opt_get_set_field_ne w field v k :
  field ≠ k ->
  Js.opt_get (PinFixer.pinfix (set_pinfix_field w field v)) k
  = Js.opt_get (PinFixer.pinfix w) k.
Proof.
  intros Hne. rewrite pinfix_set_field, opt_get_pinfix_props. cbn.
  now rewrite lookup_insert_ne.
Qed.

Lemma hudScale_set_field w field v :
  field ≠ "hudScale" ->
  PinFixer.hudScale (set_pinfix_field w field v) = PinFixer.hudScale w.
Proof.
  intros Hne. unfold PinFixer.hudScale. now rewrite opt_get_set_field_ne.
Qed.

(** C2: the HUD scale factor is [(1/zoom) * hudScale], and writing any of
    [minScale], [maxScale], [zoomFloor] or [zoomCeil] in the scene's settings
    leaves it unchanged. *)
Theorem hud_scale_factor_reciprocal (w : World) (zoom : float) :
  PinFixer.hudScaleFactor w zoom = (1 / zoom * PinFixer.hudScale w)%float
  /\ forall (field : string) (v : JsValue),
       field ∈ ["minScale"; "maxScale"; "zoomFloor"; "zoomCeil"] ->
       PinFixer.hudScaleFactor (set_pinfix_field w field v) zoom
       = PinFixer.hudScaleFactor w zoom.
Proof.
  split; [reflexivity|].
  intros field v Hin. unfold PinFixer.hudScaleFactor.
  rewrite hudScale_set_field; [reflexivity|].
  intros ->. revert Hin. rewrite !elem_of_cons, elem_of_nil.
  intros [H|[H|[H|[H|[]]]]]; discriminate.
Qed.

Lemma hud_scale_factor_reciprocal_witness :
  "zoomCeil" ∈ ["minScale"; "maxScale"; "zoomFloor"; "zoomCeil"]
  /\ PinFixer.hudScaleFactor
       (set_pinfix_field (scene_disabled cfg_shrinking) "zoomCeil" (JsNum 4)) 2
     = PinFixer.hudScaleFactor (scene_disabled cfg_shrinking) 2.
Proof.
  assert (Hin : "zoomCeil" ∈ ["minScale"; "maxScale"; "zoomFloor"; "zoomCeil"]).
  { rewrite !elem_of_cons. auto. }
  split; [exact Hin|].
  apply (hud_scale_factor_reciprocal (scene_disabled cfg_shrinking) 2).
  exact Hin.
Defined.

(** * The worked examples *)

(** C7: with [zoomFloor=0.1], [zoomCeil=2.0], [minScale=1], [maxScale=0.5]:
    at zoom 2.0 the configured note scale is 0.25; at zoom 0.05, below the
    floor, the clamp gives 0.1, the remap gives 1, and the configured note
    scale is 20. *)
Theorem worked_examples (mz sx : float) (ns : list Note) (doc : gmap string Element) :
  let w := scene_with cfg_shrinking mz sx ns doc in
  PinFixer.clampZoom w 2.0 = 2.0%float
  /\ PinFixer.noteScaleFactor w 2.0 = 0.5%float
  /\ PinFixer.noteScaleConfigured w 2.0 = 0.25%float
  /\ PinFixer.clampZoom w 0.05 = 0.1%float
  /\ PinFixer.remapZoom w 0.1 = 1%float
  /\ PinFixer.noteScaleConfigured w 0.05 = 20%float.
Proof.
  cbv zeta. repeat split; vm_compute; reflexivity.
Qed.

(** * The range mapper on a degenerate source interval *)

(** C8: [map] has no guard on its source interval.  When [f0 == f1] it
    still returns a number, and that number is never finite: it is an
    infinity or NaN. *)
Theorem map_degenerate_not_finite (f0 f1 t0 t1 s : float) :
  (f0 =? f1)%float = true ->
  is_finite (PinFixer.map (f0, f1) (t0, t1) s) = false
  /\ (is_nan (PinFixer.map (f0, f1) (t0, t1) s)
      || is_infinity (PinFixer.map (f0, f1) (t0, t1) s) = true).
Proof.
  intros Heq. unfold PinFixer.map. cbn [fst snd].
  assert (H : is_finite (t0 + (s - f0) * (t1 - t0) / (f1 - f0)) = false).
  { apply F64.add_not_finite_r, F64.div_by_zero_or_nan, F64.sub_eqb, Heq. }
  split; [exact H|].
  unfold is_finite in H. now apply negb_false_iff in H.
Qed.

Lemma map_degenerate_not_finite_witness :
  (1 =? 1)%float = true
  /\ is_finite (PinFixer.map (1, 1) (1, 0.5) 1)%float = false.
Proof.
  split; [reflexivity|].
  apply (map_degenerate_not_finite 1 1 1 0.5 1). reflexivity.
Defined.

(** * The settings accessors *)

Ltac settings_cases w :=
  unfold absent, PinFixer.zoomFloor, PinFixer.zoomCeil, PinFixer.minScale,
    PinFixer.maxScale, PinFixer.hudScale, PinFixer.enabled,
    Js.coalesce, Js.opt_get;
  destruct (PinFixer.pinfix w) as [| | | |props]; cbn; try reflexivity;
  match goal with
  | |- context [props !! ?k] => destruct (props !! k) as [[]|]; reflexivity
  end.

Lemma zoomFloor_default w :
  PinFixer.zoomFloor w
  = if absent w "zoomFloor" then PinFixer.minCanvScale
    else Js.Number (Js.get (PinFixer.pinfix w) "zoomFloor").
Proof. settings_cases w. Qed.

Lemma zoomCeil_default w :
  PinFixer.zoomCeil w
  = if absent w "zoomCeil" then PinFixer.maxCanvScale w
    else Js.Number (Js.get (PinFixer.pinfix w) "zoomCeil").
Proof. settings_cases w. Qed.

Lemma minScale_default w :
  PinFixer.minScale w
  = if absent w "minScale" then 1%float
    else Js.Number (Js.get (PinFixer.pinfix w) "minScale").
Proof. settings_cases w. Qed.

Lemma maxScale_default w :
  PinFixer.maxScale w
  = if absent w "maxScale" then 1%float
    else Js.Number (Js.get (PinFixer.pinfix w) "maxScale").
Proof. settings_cases w. Qed.

Lemma hudScale_default w :
  PinFixer.hudScale w
  = if absent w "hudScale" then 1%float
    else Js.Number (Js.get (PinFixer.pinfix w) "hudScale").
Proof. settings_cases w. Qed.

Lemma enabled_default w :
  PinFixer.enabled w
  = if absent w "enable" then false
    else Js.Boolean (Js.get (PinFixer.pinfix w) "enable").
Proof. settings_cases w. Qed.

Lemma settings_independent w field v :
  (field ≠ "zoomFloor" ->
     PinFixer.zoomFloor (set_pinfix_field w field v) = PinFixer.zoomFloor w)
  /\ (field ≠ "zoomCeil" ->
     PinFixer.zoomCeil (set_pinfix_field w field v) = PinFixer.zoomCeil w)
  /\ (field ≠ "minScale" ->
     PinFixer.minScale (set_pinfix_field w field v) = PinFixer.minScale w)
  /\ (field ≠ "maxScale" ->
     PinFixer.maxScale (set_pinfix_field w field v) = PinFixer.maxScale w)
  /\ (field ≠ "hudScale" ->
     PinFixer.hudScale (set_pinfix_field w field v) = PinFixer.hudScale w)
  /\ (field ≠ "enable" ->
     PinFixer.enabled (set_pinfix_field w field v) = PinFixer.enabled w).
Proof.
  unfold PinFixer.zoomFloor, PinFixer.zoomCeil, PinFixer.minScale,
    PinFixer.maxScale, PinFixer.hudScale, PinFixer.enabled.
  repeat split; intros Hne; now rewrite opt_get_set_field_ne.
Qed.

(** C6: every accessor falls back to its own default exactly when its own
    field is absent (the field, or the whole [pinfix] record, is missing or
    [null]): [zoomFloor] to the minimum canvas zoom 0.1, [zoomCeil] to the
    maximum canvas zoom, [minScale], [maxScale] and [hudScale] to 1, and
    [enabled] to false; otherwise the accessor reads the field, [enabled]
    by its truthiness.  Writing one field changes no accessor but its own. *)
Theorem settings_defaults_per_field (w : World) :
  PinFixer.zoomFloor w
    = (if absent w "zoomFloor" then 0.1%float
       else Js.Number (Js.get (PinFixer.pinfix w) "zoomFloor"))
  /\ PinFixer.zoomCeil w
    = (if absent w "zoomCeil" then maxZoom w
       else Js.Number (Js.get (PinFixer.pinfix w) "zoomCeil"))
  /\ PinFixer.minScale w
    = (if absent w "minScale" then 1%float
       else Js.Number (Js.get (PinFixer.pinfix w) "minScale"))
  /\ PinFixer.maxScale w
    = (if absent w "maxScale" then 1%float
       else Js.Number (Js.get (PinFixer.pinfix w) "maxScale"))
  /\ PinFixer.hudScale w
    = (if absent w "hudScale" then 1%float
       else Js.Number (Js.get (PinFixer.pinfix w) "hudScale"))
  /\ PinFixer.enabled w
    = (if absent w "enable" then false
       else Js.Boolean (Js.get (PinFixer.pinfix w) "enable"))
  /\ forall (field : string) (v : JsValue),
       (field ≠ "zoomFloor" ->
          PinFixer.zoomFloor (set_pinfix_field w field v) = PinFixer.zoomFloor w)
       /\ (field ≠ "zoomCeil" ->
          PinFixer.zoomCeil (set_pinfix_field w field v) = PinFixer.zoomCeil w)
       /\ (field ≠ "minScale" ->
          PinFixer.minScale (set_pinfix_field w field v) = PinFixer.minScale w)
       /\ (field ≠ "maxScale" ->
          PinFixer.maxScale (set_pinfix_field w field v) = PinFixer.maxScale w)
       /\ (field ≠ "hudScale" ->
          PinFixer.hudScale (set_pinfix_field w field v) = PinFixer.hudScale w)
       /\ (field ≠ "enable" ->
          PinFixer.enabled (set_pinfix_field w field v) = PinFixer.enabled w).
Proof.
  split; [apply zoomFloor_default|].
  split; [apply zoomCeil_default|].
  split; [apply minScale_default|].
  split; [apply maxScale_default|].
  split; [apply hudScale_default|].
  split; [apply enabled_default|].
  apply settings_independent.
Qed.

Lemma settings_defaults_per_field_witness :
  "hudScale" ≠ "zoomFloor"
  /\ PinFixer.zoomFloor
       (set_pinfix_field (scene_disabled cfg_shrinking) "hudScale" (JsNum 2))
     = PinFixer.zoomFloor (scene_disabled cfg_shrinking).
Proof.
  assert (Hne : "hudScale" ≠ "zoomFloor") by discriminate.
  split; [exact Hne|].
  apply (settings_defaults_per_field (scene_disabled cfg_shrinking)).
  exact Hne.
Defined.

(** * The settings form *)

Lemma defaultSettings_full w : full_default_record w (PinFixer.defaultSettings w).
Proof.
  unfold full_default_record, PinFixer.defaultSettings. cbn [Js.get].
  do 6 (split; [reflexivity|]).
  intros k. rewrite !elem_of_cons, elem_of_nil. intros Hk.
  rewrite !lookup_insert_ne by (intros <-; tauto).
  now rewrite lookup_empty.
Qed.

(** C9: the form is prepopulated all or nothing.  A truthy [pinfix] record
    is returned as it is, so a field it lacks is still missing in the
    template data.  Only when [pinfix] is falsy, in particular when it is
    missing, the template data is the full record of defaults: [enable]
    false, [zoomFloor] 0.1, [zoomCeil] the maximum canvas zoom, [minScale],
    [maxScale] and [hudScale] 1, and nothing else. *)
Theorem template_data_all_or_nothing (w : World) (data : SheetData) :
  (Js.Boolean (PinFixer.entity_pinfix data) = true ->
     PinFixer.getSceneTemplateData w data = PinFixer.entity_pinfix data)
  /\ (forall (props : gmap string JsValue) (field : string),
        PinFixer.entity_pinfix data = JsObj props ->
        props !! field = None ->
        Js.get (PinFixer.getSceneTemplateData w data) field = JsUndefined)
  /\ (Js.Boolean (PinFixer.entity_pinfix data) = false ->
        PinFixer.getSceneTemplateData w data = PinFixer.defaultSettings w
        /\ full_default_record w (PinFixer.getSceneTemplateData w data))
  /\ (PinFixer.entity_pinfix data = JsUndefined ->
        PinFixer.getSceneTemplateData w data = PinFixer.defaultSettings w
        /\ full_default_record w (PinFixer.getSceneTemplateData w data)).
Proof.
  unfold PinFixer.getSceneTemplateData, Js.or.
  split; [|split; [|split]].
  - now intros ->.
  - intros props field -> Hnone. cbn. now rewrite Hnone.
  - intros ->. split; [reflexivity|apply defaultSettings_full].
  - intros ->. split; [reflexivity|apply defaultSettings_full].
Qed.

Lemma template_data_all_or_nothing_witness :
  PinFixer.entity_pinfix sheet_partial = JsObj {[ "enable" := JsBool true ]}
  /\ ({[ "enable" := JsBool true ]} : gmap string JsValue) !! "minScale" = None
  /\ Js.get (PinFixer.getSceneTemplateData (scene_disabled ∅) sheet_partial)
        "minScale" = JsUndefined
  /\ Js.Boolean (PinFixer.entity_pinfix no_entity) = false
  /\ Js.get (PinFixer.getSceneTemplateData (scene_disabled ∅) no_entity)
        "zoomCeil" = JsNum 3
  /\ Js.get (PinFixer.getSceneTemplateData (scene_disabled ∅) no_entity)
        "minScale" = JsNum 1.
Proof.
  pose proof (template_data_all_or_nothing (scene_disabled ∅) sheet_partial)
    as (_ & Hmissing & _).
  pose proof (template_data_all_or_nothing (scene_disabled ∅) no_entity)
    as (_ & _ & Hfalsy & _).
  destruct (Hfalsy eq_refl) as (_ & _ & _ & Hceil & Hmin & _).
  split; [reflexivity|]. split; [reflexivity|].
  split; [apply (Hmissing {[ "enable" := JsBool true ]} "minScale"); reflexivity|].
  split; [reflexivity|]. split; [exact Hceil|exact Hmin].
Defined.

(** * Scaling notes *)

Lemma scaleNote_uniform note s : uniform (PinFixer.scaleNote note s).
Proof. reflexivity. Qed.

Lemma scaleNotes_notes w zoom :
  notes (PinFixer.scaleNotes w zoom)
  = (fun note => PinFixer.scaleNote note (PinFixer.noteScaleConfigured w zoom))
      <$> notes w.
Proof. reflexivity. Qed.

Lemma scaleNotes_uniform w zoom : Forall uniform (notes (PinFixer.scaleNotes w zoom)).
Proof. rewrite scaleNotes_notes. apply Forall_fmap, Forall_true. reflexivity. Qed.

Lemma scaleHUD_notes w hudId s : notes (PinFixer.scaleHUD w hudId s) = notes w.
Proof.
  unfold PinFixer.scaleHUD.
  destruct (document w !! hudId); [|reflexivity]. now destruct (is_finite s).
Qed.

Lemma resetHudScale_notes w hudId : notes (PinFixer.resetHudScale w hudId) = notes w.
Proof. unfold PinFixer.resetHudScale. now destruct (document w !! hudId). Qed.

Lemma resetHUDs_notes w : notes (PinFixer.resetHUDs w) = notes w.
Proof.
  unfold PinFixer.resetHUDs, PinFixer.huds. cbn [foldl id].
  now rewrite !resetHudScale_notes.
Qed.

Lemma scaleHUDs_notes w s : notes (PinFixer.scaleHUDs w s) = notes w.
Proof.
  unfold PinFixer.scaleHUDs, PinFixer.huds. cbn [foldl id].
  now rewrite !scaleHUD_notes.
Qed.

Lemma reset_notes w :
  notes (PinFixer.reset w)
  = (fun note => PinFixer.scaleNote note (PinFixer.noteScaleConfigured w 1))
      <$> notes w.
Proof. unfold PinFixer.reset. now rewrite resetHUDs_notes. Qed.

Lemma canvasPan_uniform w pan :
  Forall uniform (notes w) -> Forall uniform (notes (PinFixer.canvasPan w pan)).
Proof.
  intros Hu. unfold PinFixer.canvasPan.
  destruct (negb (PinFixer.enabled w)); [exact Hu|].
  rewrite scaleHUDs_notes. apply scaleNotes_uniform.
Qed.

Lemma reset_uniform w : Forall uniform (notes (PinFixer.reset w)).
Proof. rewrite reset_notes. apply Forall_fmap, Forall_true. reflexivity. Qed.

Lemma updateScene_uniform w :
  Forall uniform (notes w) -> Forall uniform (notes (PinFixer.updateScene w)).
Proof.
  intros Hu. unfold PinFixer.updateScene.
  destruct (negb (PinFixer.enabled w)).
  - apply reset_uniform.
  - now apply canvasPan_uniform.
Qed.

Lemma renderHUD_notes w hudId : notes (PinFixer.renderHUD w hudId) = notes w.
Proof.
  unfold PinFixer.renderHUD. destruct (negb (PinFixer.enabled w)); [reflexivity|].
  apply scaleHUD_notes.
Qed.

(** C10: after [scaleNotes] every note of the scene carries the same scale,
    [noteScaleConfigured zoom], in both components, and no note is added or
    dropped.  [scaleNote] always writes equal [x] and [y], so uniform scaling
    is kept by every handler: [canvasPan], [updateScene] and [renderHUD]
    leave all notes uniformly scaled when they were. *)
Theorem scaleNotes_same_uniform_scale (w : World) (zoom : float) :
  length (notes (PinFixer.scaleNotes w zoom)) = length (notes w)
  /\ Forall (fun n => transform_scale n
                      = {| x := PinFixer.noteScaleConfigured w zoom;
                           y := PinFixer.noteScaleConfigured w zoom |})
       (notes (PinFixer.scaleNotes w zoom))
  /\ Forall uniform (notes (PinFixer.scaleNotes w zoom))
  /\ (forall note s, uniform (PinFixer.scaleNote note s))
  /\ (Forall uniform (notes w) ->
      (forall pan, Forall uniform (notes (PinFixer.canvasPan w pan)))
      /\ Forall uniform (notes (PinFixer.updateScene w))
      /\ (forall hudId, Forall uniform (notes (PinFixer.renderHUD w hudId)))).
Proof.
  split; [rewrite scaleNotes_notes; apply length_fmap|].
  split; [rewrite scaleNotes_notes; apply Forall_fmap, Forall_true; reflexivity|].
  split; [apply scaleNotes_uniform|].
  split; [intros note s; apply scaleNote_uniform|].
  intros Hu. split; [|split].
  - intros pan. now apply canvasPan_uniform.
  - now apply updateScene_uniform.
  - intros hudId. now rewrite renderHUD_notes.
Qed.

Lemma scaleNotes_same_uniform_scale_witness :
  Forall uniform (notes (scene_disabled cfg_shrinking))
  /\ Forall uniform (notes (PinFixer.updateScene (scene_disabled cfg_shrinking))).
Proof.
  assert (Hu : Forall uniform (notes (scene_disabled cfg_shrinking))).
  { repeat constructor. }
  split; [exact Hu|].
  apply (scaleNotes_same_uniform_scale (scene_disabled cfg_shrinking) 1).
  exact Hu.
Defined.

(** * Reset *)

Lemma resetHudScale_lookup w hudId k :
  document (PinFixer.resetHudScale w hudId) !! k
  = if decide (hudId = k)
    then (fun _ => hud_element CssEmpty) <$> document w !! k
    else document w !! k.
Proof.
  unfold PinFixer.resetHudScale.
  destruct (document w !! hudId) as [el|] eqn:E; cbn.
  - rewrite lookup_insert. destruct (decide (hudId = k)) as [<-|]; [|done].
    now rewrite E.
  - destruct (decide (hudId = k)) as [<-|]; [|done]. now rewrite E.
Qed.

(** Every known HUD that is mounted has its transform cleared by [reset]. *)
Lemma reset_huds_cleared w hud el :
  hud ∈ PinFixer.huds ->
  document (PinFixer.reset w) !! id hud = Some el ->
  style_transform el = CssEmpty.
Proof.
  unfold PinFixer.reset, PinFixer.resetHUDs, PinFixer.huds. cbn [foldl id].
  rewrite !elem_of_cons, elem_of_nil.
  intros [->|[->|[]]]; cbn [id]; rewrite !resetHudScale_lookup;
    repeat case_decide; try congruence;
    destruct (document _ !! _); cbn; intros [= <-]; reflexivity.
Qed.

(** C3: [reset] does not put every pin back to scale 1.  It calls
    [scaleNotes 1], which writes [noteScaleConfigured 1]; with
    [zoomFloor=0.1], [zoomCeil=2.0], [minScale=1], [maxScale=0.5] and
    scaling switched off, the note ends at about 0.763 in both components.
    The mounted HUD does get its transform cleared. *)
Theorem reset_leaves_configured_scale :
  let w := scene_disabled cfg_shrinking in
  PinFixer.enabled w = false
  /\ notes (PinFixer.reset w) = [note_at 0.76315789473684204]
  /\ (0.76315789473684204 =? 1)%float = false
  /\ document (PinFixer.reset w) !! "pin-cushion-hud" = Some (hud_element CssEmpty).
Proof.
  cbv zeta. repeat split; vm_compute; reflexivity.
Qed.

(** * The hook handlers when scaling is switched off *)

Lemma canvasPan_disabled w pan :
  PinFixer.enabled w = false -> PinFixer.canvasPan w pan = w.
Proof. unfold PinFixer.canvasPan. now intros ->. Qed.

Lemma renderHUD_disabled w hudId :
  PinFixer.enabled w = false -> PinFixer.renderHUD w hudId = w.
Proof. unfold PinFixer.renderHUD. now intros ->. Qed.

Lemma updateScene_disabled w :
  PinFixer.enabled w = false -> PinFixer.updateScene w = PinFixer.reset w.
Proof. unfold PinFixer.updateScene. now intros ->. Qed.

Lemma after_last_form_group_Some content html html' :
  after_last_form_group content html = Some html' ->
  Exists (fun n => is_form_group n = true) html.
Proof.
  revert html'. induction html as [|n rest IH]; intros html' E; [discriminate|].
  cbn in E. destruct (after_last_form_group content rest) as [rest'|].
  - right. now apply (IH rest').
  - left. now destruct (is_form_group n).
Qed.

Lemma after_last_form_group_length content html :
  Exists (fun n => is_form_group n = true) html ->
  exists html',
    after_last_form_group content html = Some html'
    /\ length html' = length html + length content.
Proof.
  induction html as [|n rest IH]; intros Hex.
  - inversion Hex.
  - cbn [after_last_form_group].
    destruct (after_last_form_group content rest) as [rest'|] eqn:E.
    + pose proof (after_last_form_group_Some _ _ _ E) as Hrest.
      destruct (IH Hrest) as (html' & [= <-] & Hlen).
      eexists. split; [reflexivity|]. cbn. lia.
    + inversion Hex as [? ? Hn|? ? Hrest]; subst.
      * rewrite Hn. eexists. split; [reflexivity|].
        cbn. rewrite length_app. lia.
      * destruct (IH Hrest) as (? & [=] & _).
Qed.

Lemma after_last_form_group_none content html :
  Forall (fun n => is_form_group n = false) html ->
  after_last_form_group content html = None.
Proof.
  induction 1 as [|n rest Hn _ IH]; [reflexivity|].
  cbn [after_last_form_group]. now rewrite IH, Hn.
Qed.

Lemma after_last_form_group_split content pre g post :
  is_form_group g = true ->
  Forall (fun n => is_form_group n = false) post ->
  after_last_form_group content (pre ++ g :: post)
  = Some (pre ++ g :: content ++ post).
Proof.
  intros Hg Hpost. induction pre as [|n pre IH].
  - cbn [app after_last_form_group].
    now rewrite (after_last_form_group_none content post Hpost), Hg.
  - cbn [app after_last_form_group]. now rewrite IH.
Qed.

Lemma renderSceneConfig_after_last w data pre g post :
  is_form_group g = true ->
  Forall (fun n => is_form_group n = false) post ->
  PinFixer.renderSceneConfig w (pre ++ g :: post) data
  = pre ++ g :: PinFixer.getSceneHtml (PinFixer.getSceneTemplateData w data)
        ++ post.
Proof.
  intros Hg Hpost. unfold PinFixer.renderSceneConfig.
  now rewrite after_last_form_group_split.
Qed.

Lemma renderSceneConfig_injects w html data :
  Exists (fun n => is_form_group n = true) html ->
  length (PinFixer.renderSceneConfig w html data) = length html + 9.
Proof.
  intros Hex. unfold PinFixer.renderSceneConfig.
  destruct (after_last_form_group_length
              (PinFixer.getSceneHtml (PinFixer.getSceneTemplateData w data))
              html Hex) as (html' & -> & Hlen).
  exact Hlen.
Qed.

(** C4, as amended: with [enable] false, [canvasPan] and [renderHUD] change
    nothing (every pin scale and every HUD transform is as before);
    [updateScene] runs [reset]; and [renderSceneConfig], whatever the flag,
    inserts its fragment of nine blocks right after the last form group of
    the sheet and keeps the rest of the sheet as it is. *)
Theorem disabled_entry_points (w : World) :
  PinFixer.enabled w = false ->
  (forall pan, PinFixer.canvasPan w pan = w)
  /\ (forall hudId, PinFixer.renderHUD w hudId = w)
  /\ PinFixer.updateScene w = PinFixer.reset w
  /\ (forall (data : SheetData) (pre post : list HtmlNode) (g : HtmlNode),
        is_form_group g = true ->
        Forall (fun n => is_form_group n = false) post ->
        PinFixer.renderSceneConfig w (pre ++ g :: post) data
        = pre ++ g :: PinFixer.getSceneHtml (PinFixer.getSceneTemplateData w data)
              ++ post
        /\ length (PinFixer.getSceneHtml (PinFixer.getSceneTemplateData w data))
           = 9)
  /\ (forall html data,
        Exists (fun n => is_form_group n = true) html ->
        length (PinFixer.renderSceneConfig w html data) = length html + 9).
Proof.
  intros Hoff. split; [|split; [|split; [|split]]].
  - intros pan. now apply canvasPan_disabled.
  - intros hudId. now apply renderHUD_disabled.
  - now apply updateScene_disabled.
  - intros data pre post g Hg Hpost. split; [|reflexivity].
    now apply renderSceneConfig_after_last.
  - intros html data. apply renderSceneConfig_injects.
Qed.

Lemma disabled_entry_points_witness :
  PinFixer.enabled (scene_disabled cfg_shrinking) = false
  /\ PinFixer.canvasPan (scene_disabled cfg_shrinking)
       {| pan_x := Some 10%float; pan_y := Some 20%float; pan_scale := 2 |}
     = scene_disabled cfg_shrinking
  /\ is_form_group (HostNode true "<div class='form-group'>") = true
  /\ Forall (fun n => is_form_group n = false) [HostNode false "<footer>"]
  /\ PinFixer.renderSceneConfig (scene_disabled cfg_shrinking)
       ([Rule] ++ HostNode true "<div class='form-group'>"
               :: [HostNode false "<footer>"]) no_entity
     = [Rule] ++ HostNode true "<div class='form-group'>"
         :: PinFixer.getSceneHtml
              (PinFixer.getSceneTemplateData (scene_disabled cfg_shrinking) no_entity)
         ++ [HostNode false "<footer>"].
Proof.
  pose proof (disabled_entry_points (scene_disabled cfg_shrinking) eq_refl)
    as (Hpan & _ & _ & Hsheet & _).
  assert (Hpost : Forall (fun n => is_form_group n = false)
                    [HostNode false "<footer>"]) by (repeat constructor).
  split; [reflexivity|]. split; [apply Hpan|].
  split; [reflexivity|]. split; [exact Hpost|].
  apply Hsheet; [reflexivity|exact Hpost].
Defined.

(** C4 fails as stated: in a scene with [enable] false and a note drawn at
    scale 3, [updateScene] rescales the note and clears the HUD transform,
    and [renderSceneConfig] adds its blocks to the sheet. *)
Lemma disabled_entry_points_not_all_noops :
  let w := scene_disabled ∅ in
  PinFixer.enabled w = false
  /\ notes w = [note_at 3]
  /\ notes (PinFixer.updateScene w) = [note_at 1]
  /\ PinFixer.updateScene w <> w
  /\ PinFixer.renderSceneConfig w sheet_one_group no_entity <> sheet_one_group.
Proof.
  cbv zeta. split; [reflexivity|]. split; [reflexivity|].
  assert (Hn : notes (PinFixer.updateScene (scene_disabled ∅)) = [note_at 1])
    by (vm_compute; reflexivity).
  split; [exact Hn|]. split.
  - intros E.
    apply (f_equal (fun w' => (fun n => (x (transform_scale n) =? 1)%float)
                                <$> notes w')) in E.
    vm_compute in E. discriminate E.
  - intros E. apply (f_equal length) in E. discriminate E.
Qed.

(** * The reciprocal regime *)

(** C5, as amended: with [minScale == maxScale == 1], a zoom inside
    [[zoomFloor, zoomCeil]], a floor strictly below the ceiling and a finite
    difference [zoom - zoomFloor], the configured note scale is [1/zoom]. *)
Theorem reciprocal_regime (w : World) (zoom : float) :
  PinFixer.minScale w = 1%float ->
  PinFixer.maxScale w = 1%float ->
  (PinFixer.zoomFloor w <=? zoom)%float = true ->
  (zoom <=? PinFixer.zoomCeil w)%float = true ->
  (PinFixer.zoomFloor w <? PinFixer.zoomCeil w)%float = true ->
  is_finite (zoom - PinFixer.zoomFloor w) = true ->
  PinFixer.noteScaleConfigured w zoom = (1 / zoom)%float.
Proof.
  intros Hmin Hmax Hlo Hhi Hlt Hfin.
  unfold PinFixer.noteScaleConfigured, PinFixer.noteScaleFactor,
    PinFixer.remapZoom, PinFixer.reciprocal.
  rewrite Hmin, Hmax. unfold PinFixer.map. cbn [fst snd].
  change (1 - 1)%float with 0%float.
  destruct (F64.sub_ltb_nonzero _ _ Hlt) as [Hnz Hnn].
  rewrite F64.add_zero_r.
  - apply F64.mul_one_r.
  - apply F64.div_zero_l; [|assumption|assumption].
    apply F64.mul_finite_zero; [|reflexivity].
    now apply clampZoom_inside_sub_finite.
  - reflexivity.
Qed.

Lemma reciprocal_regime_witness :
  let w := scene_with cfg_reciprocal 3 1 [] ∅ in
  PinFixer.minScale w = 1%float
  /\ PinFixer.maxScale w = 1%float
  /\ (PinFixer.zoomFloor w <=? 2)%float = true
  /\ (2 <=? PinFixer.zoomCeil w)%float = true
  /\ (PinFixer.zoomFloor w <? PinFixer.zoomCeil w)%float = true
  /\ is_finite (2 - PinFixer.zoomFloor w) = true
  /\ PinFixer.noteScaleConfigured w 2 = (1 / 2)%float.
Proof.
  cbv zeta. do 6 (split; [reflexivity|]).
  apply (reciprocal_regime (scene_with cfg_reciprocal 3 1 [] ∅) 2); reflexivity.
Defined.

(** C5 fails as stated.  On the one-point interval
    [zoomFloor = zoomCeil = 1] the zoom 1 lies inside, the remap divides
    zero by zero and the configured scale is NaN, not [1/1].  On
    [[-1e308, 1e308]] the zoom 1e308 lies inside, [zoom - zoomFloor]
    overflows and the configured scale is NaN again. *)
Lemma reciprocal_regime_fails_on_degenerate_interval :
  let w := scene_with cfg_degenerate 3 1 [] ∅ in
  let w' := scene_with cfg_overflowing 3 1 [] ∅ in
  (PinFixer.minScale w = 1%float /\ PinFixer.maxScale w = 1%float
   /\ (PinFixer.zoomFloor w <=? 1)%float = true
   /\ (1 <=? PinFixer.zoomCeil w)%float = true
   /\ is_nan (PinFixer.noteScaleConfigured w 1) = true
   /\ PinFixer.noteScaleConfigured w 1 <> (1 / 1)%float)
  /\ (PinFixer.minScale w' = 1%float /\ PinFixer.maxScale w' = 1%float
      /\ (PinFixer.zoomFloor w' <=? 1e308)%float = true
      /\ (1e308 <=? PinFixer.zoomCeil w')%float = true
      /\ is_nan (PinFixer.noteScaleConfigured w' 1e308) = true
      /\ PinFixer.noteScaleConfigured w' 1e308 <> (1 / 1e308)%float).
Proof.
  cbv zeta. repeat split; try reflexivity.
  - intros E. apply (f_equal is_nan) in E. vm_compute in E. discriminate E.
  - intros E. apply (f_equal is_nan) in E. vm_compute in E. discriminate E.
Qed.

(** * Further properties of the scale computations *)

Lemma map_lower_endpoint (f0 f1 t0 t1 : float) :
  (f0 <? f1)%float = true ->
  is_finite f0 = true ->
  is_finite (t1 - t0) = true ->
  (PinFixer.map (f0, f1) (t0, t1) f0 =? t0)%float = true.
Proof.
  intros Hlt Hf Ht. unfold PinFixer.map. cbn [fst snd].
  destruct (F64.sub_ltb_nonzero _ _ Hlt) as [Hnz Hnn].
  apply F64.add_zero_eqb.
  - apply F64.div_zero_l; [|assumption|assumption].
    apply F64.mul_zero_finite; [|assumption].
    now apply F64.sub_self_finite.
  - apply F64.finite_not_nan. now apply F64.sub_finite_r in Ht.
Qed.

(** X1: at the zoom floor the remap gives the minimum scale: for a finite
    floor strictly below the ceiling and a finite [maxScale - minScale],
    [remapZoom zoomFloor == minScale]. *)
Theorem remapZoom_at_floor (w : World) :
  (PinFixer.zoomFloor w <? PinFixer.zoomCeil w)%float = true ->
  is_finite (PinFixer.zoomFloor w) = true ->
  is_finite (PinFixer.maxScale w - PinFixer.minScale w) = true ->
  (PinFixer.remapZoom w (PinFixer.zoomFloor w) =? PinFixer.minScale w)%float = true.
Proof. intros. unfold PinFixer.remapZoom. now apply map_lower_endpoint. Qed.

Lemma remapZoom_at_floor_witness :
  let w := scene_with cfg_shrinking 3 1 [] ∅ in
  (PinFixer.zoomFloor w <? PinFixer.zoomCeil w)%float = true
  /\ is_finite (PinFixer.zoomFloor w) = true
  /\ is_finite (PinFixer.maxScale w - PinFixer.minScale w) = true
  /\ (PinFixer.remapZoom w (PinFixer.zoomFloor w) =? PinFixer.minScale w)%float = true.
Proof.
  cbv zeta. do 3 (split; [reflexivity|]).
  apply (remapZoom_at_floor (scene_with cfg_shrinking 3 1 [] ∅)); reflexivity.
Defined.

(** X2: a flat curve stays flat: when [minScale] and [maxScale] are the same
    finite number [t], the floor is strictly below the ceiling and
    [zoom - zoomFloor] is finite, [remapZoom zoom == t], also for a zoom
    outside the interval. *)
Theorem remapZoom_flat_curve (w : World) (zoom t : float) :
  PinFixer.minScale w = t ->
  PinFixer.maxScale w = t ->
  is_finite t = true ->
  (PinFixer.zoomFloor w <? PinFixer.zoomCeil w)%float = true ->
  is_finite (zoom - PinFixer.zoomFloor w) = true ->
  (PinFixer.remapZoom w zoom =? t)%float = true.
Proof.
  intros Hmin Hmax Ht Hlt Hfin.
  unfold PinFixer.remapZoom, PinFixer.map. cbn [fst snd].
  rewrite Hmin, Hmax.
  destruct (F64.sub_ltb_nonzero _ _ Hlt) as [Hnz Hnn].
  apply F64.add_zero_eqb.
  - apply F64.div_zero_l; [|assumption|assumption].
    apply F64.mul_finite_zero; [assumption|].
    now apply F64.sub_self_finite.
  - now apply F64.finite_not_nan.
Qed.

Lemma remapZoom_flat_curve_witness :
  let w := scene_with cfg_reciprocal 3 1 [] ∅ in
  PinFixer.minScale w = 1%float
  /\ PinFixer.maxScale w = 1%float
  /\ is_finite 1 = true
  /\ (PinFixer.zoomFloor w <? PinFixer.zoomCeil w)%float = true
  /\ is_finite (7 - PinFixer.zoomFloor w) = true
  /\ (PinFixer.remapZoom w 7 =? 1)%float = true.
Proof.
  cbv zeta. do 5 (split; [reflexivity|]).
  apply (remapZoom_flat_curve (scene_with cfg_reciprocal 3 1 [] ∅) 7 1);
    reflexivity.
Defined.

Lemma canvasPan_enabled_notes w pan :
  PinFixer.enabled w = true ->
  notes (PinFixer.canvasPan w pan)
  = (fun note => PinFixer.scaleNote note
                   (PinFixer.noteScaleConfigured w (pan_scale pan)))
      <$> notes w.
Proof.
  intros He. unfold PinFixer.canvasPan. rewrite He. cbn [negb].
  now rewrite scaleHUDs_notes.
Qed.

(** X3: a zoom of zero or NaN is not rejected.  The note scale and the HUD
    scale computed from it are not finite, and an enabled [canvasPan] writes
    that scale into every note. *)
Theorem zero_zoom_not_finite (w : World) (zoom : float) :
  is_zero zoom = true \/ is_nan zoom = true ->
  is_finite (PinFixer.noteScaleConfigured w zoom) = false
  /\ is_finite (PinFixer.hudScaleFactor w zoom) = false
  /\ (PinFixer.enabled w = true ->
      forall px py,
        Forall (fun n => is_finite (x (transform_scale n)) = false
                         /\ is_finite (y (transform_scale n)) = false)
          (notes (PinFixer.canvasPan w
                    {| pan_x := px; pan_y := py; pan_scale := zoom |}))).
Proof.
  intros Hz.
  assert (Hn : is_finite (PinFixer.noteScaleConfigured w zoom) = false).
  { unfold PinFixer.noteScaleConfigured, PinFixer.reciprocal.
    now apply F64.reciprocal_mul_not_finite. }
  split; [exact Hn|]. split.
  - unfold PinFixer.hudScaleFactor, PinFixer.noteScaleBasic, PinFixer.reciprocal.
    now apply F64.reciprocal_mul_not_finite.
  - intros He px py. rewrite canvasPan_enabled_notes by assumption.
    apply Forall_fmap, Forall_true. intros n. cbn. auto.
Qed.

Lemma zero_zoom_not_finite_witness :
  is_zero 0 = true
  /\ is_finite (PinFixer.noteScaleConfigured (scene_disabled cfg_shrinking) 0)
     = false.
Proof.
  split; [reflexivity|].
  apply (zero_zoom_not_finite (scene_disabled cfg_shrinking) 0).
  left. reflexivity.
Defined.

(** X4: with [hudScale] absent, or equal to 1, the HUD scale factor is the
    plain reciprocal [1/zoom], exactly. *)
Theorem hudScaleFactor_plain_reciprocal (w : World) (zoom : float) :
  absent w "hudScale" = true \/ PinFixer.hudScale w = 1%float ->
  PinFixer.hudScaleFactor w zoom = (1 / zoom)%float.
Proof.
  intros H.
  assert (Hs : PinFixer.hudScale w = 1%float).
  { destruct H as [Ha|Hs]; [|exact Hs]. rewrite hudScale_default. now rewrite Ha. }
  unfold PinFixer.hudScaleFactor, PinFixer.noteScaleBasic, PinFixer.reciprocal.
  rewrite Hs. apply F64.mul_one_r.
Qed.

Lemma hudScaleFactor_plain_reciprocal_witness :
  absent (scene_disabled cfg_shrinking) "hudScale" = true
  /\ PinFixer.hudScaleFactor (scene_disabled cfg_shrinking) 0.3 = (1 / 0.3)%float.
Proof.
  split; [reflexivity|].
  apply (hudScaleFactor_plain_reciprocal (scene_disabled cfg_shrinking) 0.3).
  left. reflexivity.
Defined.

(** * What the handlers do to the host state *)

Lemma set_document_same w : set_document w (document w) = w.
Proof. now destruct w. Qed.

Lemma alter_const_insert (doc : gmap string Element) k el :
  alter (fun _ => el) k doc
  = match doc !! k with Some _ => <[k := el]> doc | None => doc end.
Proof.
  apply map_eq. intros j. rewrite lookup_alter.
  destruct (doc !! k) as [old|] eqn:E.
  - rewrite lookup_insert. now case_decide.
  - case_decide; [subst; now rewrite E|reflexivity].
Qed.

Lemma scaleHUD_alter w k s :
  PinFixer.scaleHUD w k s
  = if is_finite s
    then set_document w
           (alter (fun _ => hud_element (CssScale (css_number s))) k (document w))
    else w.
Proof.
  unfold PinFixer.scaleHUD. rewrite alter_const_insert.
  destruct (document w !! k), (is_finite s); try reflexivity.
  now rewrite set_document_same.
Qed.

Lemma resetHudScale_alter w k :
  PinFixer.resetHudScale w k
  = set_document w (alter (fun _ => hud_element CssEmpty) k (document w)).
Proof.
  unfold PinFixer.resetHudScale. rewrite alter_const_insert.
  destruct (document w !! k); [reflexivity|]. now rewrite set_document_same.
Qed.

Lemma scaleHUDs_rescale w s :
  PinFixer.scaleHUDs w s
  = set_document w (rescale (PinFixer.hudScaleFactor w s) (document w)).
Proof.
  unfold PinFixer.scaleHUDs, rescale, restyle, hud_ids, PinFixer.huds.
  cbn [foldl fmap list_fmap id]. rewrite !scaleHUD_alter.
  destruct (is_finite (PinFixer.hudScaleFactor w s)); [reflexivity|].
  now rewrite set_document_same.
Qed.

Lemma resetHUDs_restyle w :
  PinFixer.resetHUDs w = set_document w (restyle CssEmpty (document w)).
Proof.
  unfold PinFixer.resetHUDs, restyle, hud_ids, PinFixer.huds.
  cbn [foldl fmap list_fmap id]. now rewrite !resetHudScale_alter.
Qed.

Lemma restyle_lookup_known t doc k :
  k ∈ hud_ids ->
  restyle t doc !! k = (fun _ => hud_element t) <$> doc !! k.
Proof.
  unfold restyle, hud_ids, PinFixer.huds. cbn [foldl fmap list_fmap id].
  rewrite !elem_of_cons, elem_of_nil. rewrite !lookup_alter.
  intros [->|[->|[]]]; repeat case_decide; try congruence;
    destruct (doc !! _); reflexivity.
Qed.

Lemma restyle_lookup_other t doc k :
  k ∉ hud_ids -> restyle t doc !! k = doc !! k.
Proof.
  unfold restyle, hud_ids, PinFixer.huds. cbn [foldl fmap list_fmap id].
  rewrite !elem_of_cons, elem_of_nil. rewrite !lookup_alter.
  intros Hk. repeat case_decide; subst; tauto.
Qed.

Lemma restyle_lookup_is_Some t doc k :
  is_Some (restyle t doc !! k) <-> is_Some (doc !! k).
Proof.
  destruct (decide (k ∈ hud_ids)).
  - rewrite restyle_lookup_known by assumption. apply fmap_is_Some.
  - now rewrite restyle_lookup_other.
Qed.

Lemma dom_restyle t doc : dom (restyle t doc) = dom doc.
Proof.
  apply set_eq. intros k. rewrite !elem_of_dom. apply restyle_lookup_is_Some.
Qed.

Lemma restyle_restyle t t' doc : restyle t (restyle t' doc) = restyle t doc.
Proof.
  apply map_eq. intros k. destruct (decide (k ∈ hud_ids)).
  - rewrite !restyle_lookup_known by assumption. now destruct (doc !! k).
  - now rewrite !restyle_lookup_other.
Qed.

Lemma rescale_lookup_other h doc k :
  k ∉ hud_ids -> rescale h doc !! k = doc !! k.
Proof.
  intros Hk. unfold rescale. destruct (is_finite h); [|reflexivity].
  now apply restyle_lookup_other.
Qed.

Lemma dom_rescale h doc : dom (rescale h doc) = dom doc.
Proof. unfold rescale. destruct (is_finite h); [apply dom_restyle|reflexivity]. Qed.

Lemma restyle_rescale t h doc : restyle t (rescale h doc) = restyle t doc.
Proof. unfold rescale. destruct (is_finite h); [apply restyle_restyle|reflexivity]. Qed.

Lemma rescale_rescale_finite h h' doc :
  is_finite h = true -> rescale h (rescale h' doc) = rescale h doc.
Proof. intros Hf. unfold rescale at 1 3. rewrite Hf. apply restyle_rescale. Qed.

Lemma rescale_same h doc : rescale h (rescale h doc) = rescale h doc.
Proof.
  destruct (is_finite h) eqn:Hf; [now apply rescale_rescale_finite|].
  unfold rescale. now rewrite Hf.
Qed.

Lemma canvasPan_enabled w pan :
  PinFixer.enabled w = true ->
  PinFixer.canvasPan w pan
  = set_document
      (set_notes w
         ((fun note => PinFixer.scaleNote note
                         (PinFixer.noteScaleConfigured w (pan_scale pan)))
            <$> notes w))
      (rescale (PinFixer.hudScaleFactor w (pan_scale pan)) (document w)).
Proof.
  intros He. unfold PinFixer.canvasPan. rewrite He. cbn [negb].
  now rewrite scaleHUDs_rescale.
Qed.

Lemma reset_eq w :
  PinFixer.reset w
  = set_document
      (set_notes w
         ((fun note => PinFixer.scaleNote note (PinFixer.noteScaleConfigured w 1))
            <$> notes w))
      (restyle CssEmpty (document w)).
Proof. unfold PinFixer.reset. now rewrite resetHUDs_restyle. Qed.

Lemma same_config_refl w : same_config w w.
Proof. now repeat split. Qed.

Lemma canvasPan_same_config w pan : same_config w (PinFixer.canvasPan w pan).
Proof.
  destruct (PinFixer.enabled w) eqn:He.
  - rewrite canvasPan_enabled by assumption. now repeat split.
  - rewrite canvasPan_disabled by assumption. apply same_config_refl.
Qed.

Lemma reset_same_config w : same_config w (PinFixer.reset w).
Proof. rewrite reset_eq. now repeat split. Qed.

Lemma renderHUD_same_config w hudId : same_config w (PinFixer.renderHUD w hudId).
Proof.
  unfold PinFixer.renderHUD. destruct (negb (PinFixer.enabled w)).
  - apply same_config_refl.
  - rewrite scaleHUD_alter. destruct (is_finite _); now repeat split.
Qed.

Lemma updateScene_same_config w : same_config w (PinFixer.updateScene w).
Proof.
  unfold PinFixer.updateScene. destruct (negb (PinFixer.enabled w)).
  - apply reset_same_config.
  - apply canvasPan_same_config.
Qed.

Lemma same_config_settings w w' :
  same_config w w' ->
  PinFixer.enabled w' = PinFixer.enabled w
  /\ PinFixer.zoomFloor w' = PinFixer.zoomFloor w
  /\ PinFixer.zoomCeil w' = PinFixer.zoomCeil w
  /\ PinFixer.minScale w' = PinFixer.minScale w
  /\ PinFixer.maxScale w' = PinFixer.maxScale w
  /\ PinFixer.hudScale w' = PinFixer.hudScale w.
Proof.
  intros (Hf & Hm & _).
  unfold PinFixer.enabled, PinFixer.zoomFloor, PinFixer.zoomCeil,
    PinFixer.minScale, PinFixer.maxScale, PinFixer.hudScale,
    PinFixer.pinfix, PinFixer.flags, PinFixer.maxCanvScale.
  now rewrite Hf, Hm.
Qed.

(** X5: no handler writes the settings.  After [canvasPan], [renderHUD],
    [updateScene] or [reset] the scene flags, the maximum zoom and the stage
    scale are what they were, so every accessor reads the same value as
    before. *)
Theorem handlers_keep_settings (w : World) :
  forall w',
    (exists pan, w' = PinFixer.canvasPan w pan)
    \/ (exists hudId, w' = PinFixer.renderHUD w hudId)
    \/ w' = PinFixer.updateScene w
    \/ w' = PinFixer.reset w ->
    same_config w w'
    /\ PinFixer.enabled w' = PinFixer.enabled w
    /\ PinFixer.zoomFloor w' = PinFixer.zoomFloor w
    /\ PinFixer.zoomCeil w' = PinFixer.zoomCeil w
    /\ PinFixer.minScale w' = PinFixer.minScale w
    /\ PinFixer.maxScale w' = PinFixer.maxScale w
    /\ PinFixer.hudScale w' = PinFixer.hudScale w.
Proof.
  intros w' H.
  assert (Hc : same_config w w').
  { destruct H as [[pan ->]|[[hudId ->]|[->| ->]]].
    - apply canvasPan_same_config.
    - apply renderHUD_same_config.
    - apply updateScene_same_config.
    - apply reset_same_config. }
  split; [exact Hc|]. now apply same_config_settings.
Qed.

Lemma handlers_keep_settings_witness :
  PinFixer.zoomFloor (PinFixer.updateScene (scene_disabled cfg_shrinking))
  = PinFixer.zoomFloor (scene_disabled cfg_shrinking).
Proof.
  apply (handlers_keep_settings (scene_disabled cfg_shrinking)
           (PinFixer.updateScene (scene_disabled cfg_shrinking))).
  right. right. left. reflexivity.
Defined.

(** X6: the note and HUD handlers never mount, unmount or touch an element
    other than the known HUDs: after [canvasPan], [updateScene] or [reset]
    the document has the same element ids, and every element whose id is
    not a known HUD id is unchanged. *)
Theorem handlers_touch_known_huds_only (w : World) :
  forall w',
    (exists pan, w' = PinFixer.canvasPan w pan)
    \/ w' = PinFixer.updateScene w
    \/ w' = PinFixer.reset w ->
    dom (document w') = dom (document w)
    /\ forall k, k ∉ hud_ids -> document w' !! k = document w !! k.
Proof.
  assert (Hpan : forall pan,
    dom (document (PinFixer.canvasPan w pan)) = dom (document w)
    /\ forall k, k ∉ hud_ids ->
         document (PinFixer.canvasPan w pan) !! k = document w !! k).
  { intros pan. destruct (PinFixer.enabled w) eqn:He.
    - rewrite canvasPan_enabled by assumption. cbn [document set_document].
      split; [apply dom_rescale|]. intros k Hk. now apply rescale_lookup_other.
    - rewrite canvasPan_disabled by assumption. now split. }
  assert (Hreset :
    dom (document (PinFixer.reset w)) = dom (document w)
    /\ forall k, k ∉ hud_ids ->
         document (PinFixer.reset w) !! k = document w !! k).
  { rewrite reset_eq. cbn [document set_document].
    split; [apply dom_restyle|]. intros k Hk. now apply restyle_lookup_other. }
  intros w' [[pan ->]|[->| ->]].
  - apply Hpan.
  - unfold PinFixer.updateScene. destruct (negb (PinFixer.enabled w)).
    + exact Hreset.
    + apply Hpan.
  - exact Hreset.
Qed.

Lemma handlers_touch_known_huds_only_witness :
  dom (document (PinFixer.reset (scene_disabled cfg_shrinking)))
  = dom (document (scene_disabled cfg_shrinking)).
Proof.
  apply (handlers_touch_known_huds_only (scene_disabled cfg_shrinking)
           (PinFixer.reset (scene_disabled cfg_shrinking))).
  right. right. reflexivity.
Defined.

(** X7: an enabled [canvasPan] gives every note the scale
    [noteScaleConfigured pan.scale] in both components and keeps their
    number.  When [hudScaleFactor pan.scale] is finite every mounted known
    HUD gets the transform [scale(<that factor>)], with [-0] printed as
    [0]; when it is not finite the style setter drops the text and every
    known HUD keeps the transform it had.  A known HUD that is not mounted
    stays unmounted. *)
Theorem canvasPan_enabled_effect (w : World) (pan : Pan) :
  PinFixer.enabled w = true ->
  notes (PinFixer.canvasPan w pan)
    = (fun _ => note_at (PinFixer.noteScaleConfigured w (pan_scale pan)))
        <$> notes w
  /\ length (notes (PinFixer.canvasPan w pan)) = length (notes w)
  /\ forall k, k ∈ hud_ids ->
       document (PinFixer.canvasPan w pan) !! k
       = if is_finite (PinFixer.hudScaleFactor w (pan_scale pan))
         then (fun _ => hud_element
                          (CssScale
                             (css_number
                                (PinFixer.hudScaleFactor w (pan_scale pan)))))
                <$> document w !! k
         else document w !! k.
Proof.
  intros He. rewrite canvasPan_enabled by assumption.
  cbn [notes document set_document set_notes]. repeat split.
  - apply length_fmap.
  - intros k Hk. unfold rescale. destruct (is_finite _); [|reflexivity].
    now apply restyle_lookup_known.
Qed.

Lemma canvasPan_enabled_effect_witness :
  let w := scene_enabled cfg_shrinking in
  let pan := {| pan_x := None; pan_y := None; pan_scale := 4 |} in
  let gone := {| pan_x := None; pan_y := None; pan_scale := 0 |} in
  PinFixer.enabled w = true
  /\ "pin-cushion-hud" ∈ hud_ids
  /\ document (PinFixer.canvasPan w pan) !! "pin-cushion-hud"
     = Some (hud_element (CssScale 0.25))
  /\ document (PinFixer.canvasPan w gone) !! "pin-cushion-hud"
     = Some (hud_element (CssScale 0.5)).
Proof.
  cbv zeta.
  assert (Hin : "pin-cushion-hud" ∈ hud_ids).
  { unfold hud_ids, PinFixer.huds. cbn. rewrite !elem_of_cons. auto. }
  split; [reflexivity|]. split; [exact Hin|]. split.
  - pose proof (canvasPan_enabled_effect (scene_enabled cfg_shrinking)
                  {| pan_x := None; pan_y := None; pan_scale := 4 |}
                  eq_refl) as (_ & _ & Hhud).
    rewrite (Hhud _ Hin). reflexivity.
  - pose proof (canvasPan_enabled_effect (scene_enabled cfg_shrinking)
                  {| pan_x := None; pan_y := None; pan_scale := 0 |}
                  eq_refl) as (_ & _ & Hhud).
    rewrite (Hhud _ Hin). reflexivity.
Defined.

Lemma scaleNote_twice (ns : list Note) (a b : float) :
  (fun note => PinFixer.scaleNote note b)
    <$> ((fun note => PinFixer.scaleNote note a) <$> ns)
  = (fun note => PinFixer.scaleNote note b) <$> ns.
Proof. rewrite <- list_fmap_compose. reflexivity. Qed.

Lemma canvasPan_canvasPan_notes w p1 p2 :
  notes (PinFixer.canvasPan (PinFixer.canvasPan w p1) p2)
  = notes (PinFixer.canvasPan w p2).
Proof.
  destruct (PinFixer.enabled w) eqn:He.
  - rewrite (canvasPan_enabled w p1 He).
    rewrite canvasPan_enabled by exact He.
    rewrite (canvasPan_enabled w p2 He).
    cbn [notes document set_document set_notes].
    apply scaleNote_twice.
  - now rewrite (canvasPan_disabled w p1 He).
Qed.

Lemma canvasPan_canvasPan w p1 p2 :
  PinFixer.enabled w = false
  \/ is_finite (PinFixer.hudScaleFactor w (pan_scale p2)) = true ->
  PinFixer.canvasPan (PinFixer.canvasPan w p1) p2 = PinFixer.canvasPan w p2.
Proof.
  intros H. destruct (PinFixer.enabled w) eqn:He.
  - destruct H as [H|Hf]; [discriminate|].
    rewrite (canvasPan_enabled w p1 He).
    rewrite canvasPan_enabled by exact He.
    rewrite (canvasPan_enabled w p2 He).
    unfold set_document, set_notes.
    cbn [notes document scene_flags maxZoom stage_scale_x].
    rewrite scaleNote_twice.
    change (PinFixer.hudScaleFactor _ (pan_scale p2))
      with (PinFixer.hudScaleFactor w (pan_scale p2)).
    now rewrite rescale_rescale_finite.
  - now rewrite (canvasPan_disabled w p1 He).
Qed.

Lemma canvasPan_same_twice w pan :
  PinFixer.canvasPan (PinFixer.canvasPan w pan) pan = PinFixer.canvasPan w pan.
Proof.
  destruct (PinFixer.enabled w) eqn:He.
  - rewrite (canvasPan_enabled w pan He).
    rewrite canvasPan_enabled by exact He.
    unfold set_document, set_notes.
    cbn [notes document scene_flags maxZoom stage_scale_x].
    rewrite scaleNote_twice.
    change (PinFixer.hudScaleFactor _ (pan_scale pan))
      with (PinFixer.hudScaleFactor w (pan_scale pan)).
    now rewrite rescale_same.
  - now rewrite !(canvasPan_disabled w pan He).
Qed.

Lemma reset_canvasPan w pan :
  PinFixer.reset (PinFixer.canvasPan w pan) = PinFixer.reset w.
Proof.
  destruct (PinFixer.enabled w) eqn:He.
  - rewrite (canvasPan_enabled w pan He). rewrite !reset_eq.
    unfold set_document, set_notes. cbn [notes document scene_flags maxZoom stage_scale_x].
    rewrite scaleNote_twice, restyle_rescale. reflexivity.
  - now rewrite canvasPan_disabled.
Qed.

Lemma reset_reset w : PinFixer.reset (PinFixer.reset w) = PinFixer.reset w.
Proof.
  rewrite !reset_eq.
  unfold set_document, set_notes. cbn [notes document scene_flags maxZoom stage_scale_x].
  rewrite scaleNote_twice, restyle_restyle. reflexivity.
Qed.

(** X8: the last pan wins for the notes, and for the whole state when its
    HUD scale is finite.  Panning twice to the same zoom is the same as
    panning once; after two pans the notes are those of the second pan
    alone; and when scaling is disabled or [hudScaleFactor] of the second
    pan is finite, the whole state is that of the second pan alone.  (A
    second pan with a HUD scale that is not finite leaves the HUDs at the
    transform of the first.) *)
Theorem canvasPan_last_wins (w : World) (p1 p2 : Pan) :
  PinFixer.canvasPan (PinFixer.canvasPan w p1) p1 = PinFixer.canvasPan w p1
  /\ notes (PinFixer.canvasPan (PinFixer.canvasPan w p1) p2)
     = notes (PinFixer.canvasPan w p2)
  /\ (PinFixer.enabled w = false
      \/ is_finite (PinFixer.hudScaleFactor w (pan_scale p2)) = true ->
      PinFixer.canvasPan (PinFixer.canvasPan w p1) p2 = PinFixer.canvasPan w p2).
Proof.
  split; [apply canvasPan_same_twice|].
  split; [apply canvasPan_canvasPan_notes|apply canvasPan_canvasPan].
Qed.

Lemma canvasPan_last_wins_witness :
  let w := scene_enabled cfg_shrinking in
  let p1 := {| pan_x := None; pan_y := None; pan_scale := 4 |} in
  let p2 := {| pan_x := None; pan_y := None; pan_scale := 0.5 |} in
  is_finite (PinFixer.hudScaleFactor w (pan_scale p2)) = true
  /\ PinFixer.canvasPan w p1 <> w
  /\ PinFixer.canvasPan w p2 <> PinFixer.canvasPan w p1
  /\ PinFixer.canvasPan (PinFixer.canvasPan w p1) p2 = PinFixer.canvasPan w p2.
Proof.
  cbv zeta. split; [reflexivity|]. split; [|split].
  - intros E.
    apply (f_equal (fun w' => (fun n => (x (transform_scale n) =? 3)%float)
                                <$> notes w')) in E.
    vm_compute in E. discriminate E.
  - intros E.
    apply (f_equal (fun w' => (fun n => (x (transform_scale n) <? 1)%float)
                                <$> notes w')) in E.
    vm_compute in E. discriminate E.
  - apply (canvasPan_last_wins (scene_enabled cfg_shrinking)
             {| pan_x := None; pan_y := None; pan_scale := 4 |}
             {| pan_x := None; pan_y := None; pan_scale := 0.5 |}).
    right. reflexivity.
Defined.

(** X9: [reset] forgets what the pans before it did, and a second [reset]
    changes nothing: [reset (canvasPan w pan) = reset w] and
    [reset (reset w) = reset w]. *)
Theorem reset_absorbs (w : World) (pan : Pan) :
  PinFixer.reset (PinFixer.canvasPan w pan) = PinFixer.reset w
  /\ PinFixer.reset (PinFixer.reset w) = PinFixer.reset w.
Proof. split; [apply reset_canvasPan|apply reset_reset]. Qed.






Lemma updateScene_canvasPan_notes w pan :
  notes (PinFixer.updateScene (PinFixer.canvasPan w pan))
  = notes (PinFixer.updateScene w).
Proof.
  destruct (PinFixer.enabled w) eqn:He.
  - rewrite (canvasPan_enabled w pan He).
    unfold PinFixer.updateScene at 1.
    change (PinFixer.enabled (set_document _ _)) with (PinFixer.enabled w).
    rewrite He. cbn [negb stage_scale_x set_document set_notes].
    rewrite <- (canvasPan_enabled w pan He).
    rewrite canvasPan_canvasPan_notes.
    unfold PinFixer.updateScene. now rewrite He.
  - now rewrite (canvasPan_disabled w pan He).
Qed.

Lemma updateScene_canvasPan w pan :
  PinFixer.enabled w = false
  \/ is_finite (PinFixer.hudScaleFactor w (stage_scale_x w)) = true ->
  PinFixer.updateScene (PinFixer.canvasPan w pan) = PinFixer.updateScene w.
Proof.
  intros H. destruct (PinFixer.enabled w) eqn:He.
  - rewrite (canvasPan_enabled w pan He).
    unfold PinFixer.updateScene at 1.
    change (PinFixer.enabled (set_document _ _)) with (PinFixer.enabled w).
    rewrite He. cbn [negb stage_scale_x set_document set_notes].
    rewrite <- (canvasPan_enabled w pan He).
    rewrite canvasPan_canvasPan
      by (destruct H as [H|H]; [discriminate|right; exact H]).
    unfold PinFixer.updateScene. now rewrite He.
  - now rewrite (canvasPan_disabled w pan He).
Qed.

Lemma updateScene_updateScene w :
  PinFixer.updateScene (PinFixer.updateScene w) = PinFixer.updateScene w.
Proof.
  destruct (PinFixer.enabled w) eqn:He.
  - assert (Hu : PinFixer.updateScene w
                 = PinFixer.canvasPan w
                     {| pan_x := None; pan_y := None;
                        pan_scale := stage_scale_x w |}).
    { unfold PinFixer.updateScene. now rewrite He. }
    rewrite Hu.
    pose proof (canvasPan_same_config w
                  {| pan_x := None; pan_y := None;
                     pan_scale := stage_scale_x w |}) as Hc.
    destruct (same_config_settings _ _ Hc) as (Hen & _).
    destruct Hc as (_ & _ & Hstage).
    unfold PinFixer.updateScene. rewrite Hen, He. cbn [negb].
    rewrite Hstage. apply canvasPan_same_twice.
  - rewrite (updateScene_disabled w He).
    rewrite reset_eq at 1. unfold PinFixer.updateScene.
    change (PinFixer.enabled (set_document _ _)) with (PinFixer.enabled w).
    rewrite He. cbn [negb]. rewrite <- reset_eq. apply reset_reset.
Qed.

(** X12: [updateScene] twice is the same as [updateScene] once.  After a
    pan it leaves the notes it would leave alone, and the whole state it
    would leave alone when scaling is disabled or
    [hudScaleFactor(canvas.stage.scale.x)] is finite.  (With a factor that
    is not finite the HUDs keep the transform of the pan.) *)
Theorem updateScene_absorbs (w : World) (pan : Pan) :
  PinFixer.updateScene (PinFixer.updateScene w) = PinFixer.updateScene w
  /\ notes (PinFixer.updateScene (PinFixer.canvasPan w pan))
     = notes (PinFixer.updateScene w)
  /\ (PinFixer.enabled w = false
      \/ is_finite (PinFixer.hudScaleFactor w (stage_scale_x w)) = true ->
      PinFixer.updateScene (PinFixer.canvasPan w pan) = PinFixer.updateScene w).
Proof.
  split; [apply updateScene_updateScene|].
  split; [apply updateScene_canvasPan_notes|apply updateScene_canvasPan].
Qed.

Lemma updateScene_absorbs_witness :
  let w := scene_enabled cfg_shrinking in
  let pan := {| pan_x := None; pan_y := None; pan_scale := 4 |} in
  is_finite (PinFixer.hudScaleFactor w (stage_scale_x w)) = true
  /\ PinFixer.canvasPan w pan <> PinFixer.updateScene w
  /\ PinFixer.updateScene (PinFixer.canvasPan w pan) = PinFixer.updateScene w.
Proof.
  cbv zeta. split; [reflexivity|]. split.
  - intros E.
    apply (f_equal (fun w' => (fun n => (x (transform_scale n) <? 0.2)%float)
                                <$> notes w')) in E.
    vm_compute in E. discriminate E.
  - apply (updateScene_absorbs (scene_enabled cfg_shrinking)
             {| pan_x := None; pan_y := None; pan_scale := 4 |}).
    right. reflexivity.
Defined.

Lemma noteScaleFactor_unit_curve (w : World) (zoom : float) :
  PinFixer.minScale w = 1%float ->
  PinFixer.maxScale w = 1%float ->
  (PinFixer.zoomFloor w <=? zoom)%float = true ->
  (zoom <=? PinFixer.zoomCeil w)%float = true ->
  (PinFixer.zoomFloor w <? PinFixer.zoomCeil w)%float = true ->
  is_finite (zoom - PinFixer.zoomFloor w) = true ->
  PinFixer.noteScaleFactor w zoom = 1%float.
Proof.
  intros Hmin Hmax Hlo Hhi Hlt Hfin.
  unfold PinFixer.noteScaleFactor, PinFixer.remapZoom.
  rewrite Hmin, Hmax. unfold PinFixer.map. cbn [fst snd].
  change (1 - 1)%float with 0%float.
  destruct (F64.sub_ltb_nonzero _ _ Hlt) as [Hnz Hnn].
  apply F64.add_zero_r; [|reflexivity].
  apply F64.div_zero_l; [|assumption|assumption].
  apply F64.mul_finite_zero; [|reflexivity].
  now apply clampZoom_inside_sub_finite.
Qed.

(** X13: [reset] does put every pin back to scale 1 on a flat unit curve:
    with [minScale == maxScale == 1], the floor strictly below the ceiling,
    the zoom 1 inside [[zoomFloor, zoomCeil]] and [1 - zoomFloor] finite,
    every note has scale 1 in both components after [reset], and so after
    an [updateScene] with scaling disabled. *)
Theorem reset_restores_unit_scale (w : World) :
  PinFixer.minScale w = 1%float ->
  PinFixer.maxScale w = 1%float ->
  (PinFixer.zoomFloor w <=? 1)%float = true ->
  (1 <=? PinFixer.zoomCeil w)%float = true ->
  (PinFixer.zoomFloor w <? PinFixer.zoomCeil w)%float = true ->
  is_finite (1 - PinFixer.zoomFloor w) = true ->
  notes (PinFixer.reset w) = (fun _ => note_at 1) <$> notes w
  /\ (PinFixer.enabled w = false ->
      notes (PinFixer.updateScene w) = (fun _ => note_at 1) <$> notes w).
Proof.
  intros Hmin Hmax Hlo Hhi Hlt Hfin.
  assert (Hr : notes (PinFixer.reset w) = (fun _ => note_at 1) <$> notes w).
  { rewrite reset_notes. unfold PinFixer.noteScaleConfigured.
    rewrite noteScaleFactor_unit_curve by assumption. reflexivity. }
  split; [exact Hr|].
  intros He. now rewrite updateScene_disabled.
Qed.

Lemma reset_restores_unit_scale_witness :
  let w := scene_disabled cfg_reciprocal in
  PinFixer.minScale w = 1%float
  /\ PinFixer.maxScale w = 1%float
  /\ (PinFixer.zoomFloor w <=? 1)%float = true
  /\ (1 <=? PinFixer.zoomCeil w)%float = true
  /\ (PinFixer.zoomFloor w <? PinFixer.zoomCeil w)%float = true
  /\ is_finite (1 - PinFixer.zoomFloor w) = true
  /\ notes (PinFixer.reset w) = (fun _ => note_at 1) <$> notes w.
Proof.
  cbv zeta. do 6 (split; [reflexivity|]).
  apply (reset_restores_unit_scale (scene_disabled cfg_reciprocal)); reflexivity.
Defined.

(** * The scene configuration sheet *)

(** X14: [renderSceneConfig] puts its fragment right after the last form
    group of the sheet and keeps everything else in place; a sheet without
    a form group is returned unchanged. *)
Theorem renderSceneConfig_placement (w : World) (data : SheetData)
    (pre post : list HtmlNode) (g : HtmlNode) :
  Forall (fun n => is_form_group n = false) post ->
  (is_form_group g = true ->
     PinFixer.renderSceneConfig w (pre ++ g :: post) data
     = pre ++ g :: PinFixer.getSceneHtml (PinFixer.getSceneTemplateData w data)
           ++ post)
  /\ PinFixer.renderSceneConfig w post data = post.
Proof.
  intros Hpost. split.
  - intros Hg. now apply renderSceneConfig_after_last.
  - unfold PinFixer.renderSceneConfig.
    now rewrite after_last_form_group_none.
Qed.

Lemma renderSceneConfig_placement_witness :
  Forall (fun n => is_form_group n = false) [HostNode false "<footer>"]
  /\ is_form_group (HostNode true "<div class='form-group'>") = true
  /\ PinFixer.renderSceneConfig (scene_disabled cfg_shrinking)
       ([Rule] ++ HostNode true "<div class='form-group'>"
               :: [HostNode false "<footer>"]) no_entity
     = [Rule] ++ HostNode true "<div class='form-group'>"
         :: PinFixer.getSceneHtml
              (PinFixer.getSceneTemplateData (scene_disabled cfg_shrinking) no_entity)
         ++ [HostNode false "<footer>"]
  /\ PinFixer.renderSceneConfig (scene_disabled cfg_shrinking)
       [HostNode false "<footer>"] no_entity
     = [HostNode false "<footer>"].
Proof.
  assert (H : Forall (fun n => is_form_group n = false) [HostNode false "<footer>"]).
  { repeat constructor. }
  pose proof (renderSceneConfig_placement (scene_disabled cfg_shrinking) no_entity
                [Rule] [HostNode false "<footer>"]
                (HostNode true "<div class='form-group'>") H) as [H1 H2].
  split; [exact H|]. split; [reflexivity|]. split; [|exact H2].
  apply H1. reflexivity.
Defined.

Lemma getSceneHtml_ends_with_form_group settings :
  exists front g,
    PinFixer.getSceneHtml settings = front ++ [g]
    /\ is_form_group g = true /\ length front = 8.
Proof.
  unfold PinFixer.getSceneHtml.
  eexists [_; _; _; _; _; _; _; _], _. repeat split.
Qed.

(** X15: rendering the sheet hook a second time does not replace the
    fragment: the second fragment lands right after the first one, whose
    last block is a form group. *)
Theorem renderSceneConfig_twice (w : World) (d1 d2 : SheetData)
    (pre post : list HtmlNode) (g : HtmlNode) :
  is_form_group g = true ->
  Forall (fun n => is_form_group n = false) post ->
  PinFixer.renderSceneConfig w
    (PinFixer.renderSceneConfig w (pre ++ g :: post) d1) d2
  = pre ++ g :: PinFixer.getSceneHtml (PinFixer.getSceneTemplateData w d1)
        ++ PinFixer.getSceneHtml (PinFixer.getSceneTemplateData w d2)
        ++ post.
Proof.
  intros Hg Hpost.
  rewrite (renderSceneConfig_after_last w d1 pre g post Hg Hpost).
  destruct (getSceneHtml_ends_with_form_group (PinFixer.getSceneTemplateData w d1))
    as (front & last & -> & Hlast & _).
  replace (pre ++ g :: (front ++ [last]) ++ post)
    with ((pre ++ g :: front) ++ last :: post)
    by (now rewrite <- !app_assoc).
  rewrite (renderSceneConfig_after_last w d2 (pre ++ g :: front) last post
             Hlast Hpost).
  now rewrite <- !app_assoc.
Qed.

Lemma renderSceneConfig_twice_witness :
  is_form_group (HostNode true "<div class='form-group'>") = true
  /\ length (PinFixer.renderSceneConfig (scene_disabled cfg_shrinking)
               (PinFixer.renderSceneConfig (scene_disabled cfg_shrinking)
                  ([] ++ HostNode true "<div class='form-group'>" :: [])
                  no_entity)
               sheet_partial)
     = 19.
Proof.
  split; [reflexivity|].
  rewrite (renderSceneConfig_twice (scene_disabled cfg_shrinking)
             no_entity sheet_partial [] []
             (HostNode true "<div class='form-group'>"));
    [reflexivity|reflexivity|constructor].
Defined.

(** * The form and the accessors *)

Ltac form_input w Hsame Hok :=
  unfold PinFixer.getSceneTemplateData, Js.or; rewrite Hsame;
  unfold PinFixer.zoomFloor, PinFixer.zoomCeil, PinFixer.minScale,
    PinFixer.maxScale, PinFixer.hudScale, Js.coalesce, Js.opt_get;
  destruct (PinFixer.pinfix w) as [| |[]|n|props];
    cbn [Js.Boolean Js.get Js.nullish] in Hok |- *;
  try reflexivity;
  try (destruct Hok as [[m Hm]|Hok]; discriminate);
  [ destruct Hok as [[m Hm]|Hok]; [discriminate|]; rewrite Hok; reflexivity
  | destruct Hok as [[m Hm]|Hok]; [|discriminate];
    cbn [PinFixer.getSceneHtml shown_input input_name];
    repeat match goal with
      | |- context [String.eqb ?a ?b] =>
          let r := eval vm_compute in (String.eqb a b) in
          change (String.eqb a b) with r
      end;
    cbn iota; cbn [Js.get]; rewrite Hm; reflexivity ].

(** X16: the form shows what the accessors read.  When the sheet is the one
    of the current scene, the number interpolated into the input bound to
    [flags.pinfix.<field>] is the number the accessor of that field
    returns, provided the field holds a number or the whole [pinfix] record
    is falsy; and the checkbox bound to [flags.pinfix.enable] is checked
    exactly when [enabled].  (A field that is missing from an existing
    record, or holds something that is not a number, is where the form and
    the accessor differ.) *)
Theorem form_agrees_with_accessors (w : World) (data : SheetData) :
  PinFixer.entity_pinfix data = PinFixer.pinfix w ->
  let form := PinFixer.getSceneHtml (PinFixer.getSceneTemplateData w data) in
  let holds_number field :=
    (exists n, Js.get (PinFixer.pinfix w) field = JsNum n)
    \/ Js.Boolean (PinFixer.pinfix w) = false in
  (holds_number "zoomFloor" ->
     shown_input form "flags.pinfix.zoomFloor"
     = Some (TextInput "flags.pinfix.zoomFloor" (JsNum (PinFixer.zoomFloor w))))
  /\ (holds_number "zoomCeil" ->
     shown_input form "flags.pinfix.zoomCeil"
     = Some (TextInput "flags.pinfix.zoomCeil" (JsNum (PinFixer.zoomCeil w))))
  /\ (holds_number "minScale" ->
     shown_input form "flags.pinfix.minScale"
     = Some (TextInput "flags.pinfix.minScale" (JsNum (PinFixer.minScale w))))
  /\ (holds_number "maxScale" ->
     shown_input form "flags.pinfix.maxScale"
     = Some (TextInput "flags.pinfix.maxScale" (JsNum (PinFixer.maxScale w))))
  /\ (holds_number "hudScale" ->
     shown_input form "flags.pinfix.hudScale"
     = Some (TextInput "flags.pinfix.hudScale" (JsNum (PinFixer.hudScale w))))
  /\ shown_input form "flags.pinfix.enable"
     = Some (Checkbox "flags.pinfix.enable" (PinFixer.enabled w)).
Proof.
  intros Hsame. cbv zeta. repeat split; try intros Hok.
  - form_input w Hsame Hok.
  - form_input w Hsame Hok.
  - form_input w Hsame Hok.
  - form_input w Hsame Hok.
  - form_input w Hsame Hok.
  - unfold PinFixer.getSceneTemplateData, Js.or. rewrite Hsame.
    unfold PinFixer.enabled, Js.opt_get.
    destruct (PinFixer.pinfix w) as [| |[]|n|props]; cbn [Js.Boolean Js.nullish];
      try reflexivity.
    destruct (negb _); reflexivity.
Qed.

Lemma form_agrees_with_accessors_witness :
  let cfg : gmap string JsValue := {[ "minScale" := JsNum 2 ]} in
  let w := scene_with cfg 3 1 [] ∅ in
  let data := {| entity := Some {| entity_flags :=
                   Some {[ "pinfix" := JsObj cfg ]} |} |} in
  PinFixer.entity_pinfix data = PinFixer.pinfix w
  /\ (exists n, Js.get (PinFixer.pinfix w) "minScale" = JsNum n)
  /\ PinFixer.minScale w = 2%float
  /\ shown_input (PinFixer.getSceneHtml (PinFixer.getSceneTemplateData w data))
       "flags.pinfix.minScale"
     = Some (TextInput "flags.pinfix.minScale" (JsNum (PinFixer.minScale w))).
Proof.
  cbv zeta.
  assert (Hnum : exists n,
            Js.get (PinFixer.pinfix (scene_with {[ "minScale" := JsNum 2 ]} 3 1 [] ∅))
              "minScale" = JsNum n) by (exists 2%float; reflexivity).
  split; [reflexivity|]. split; [exact Hnum|]. split; [reflexivity|].
  pose proof (form_agrees_with_accessors
                (scene_with {[ "minScale" := JsNum 2 ]} 3 1 [] ∅)
                {| entity := Some {| entity_flags :=
                     Some {[ "pinfix" := JsObj {[ "minScale" := JsNum 2 ]} ]} |} |}
                eq_refl) as (_ & _ & Hmin & _).
  apply Hmin. left. exact Hnum.
Defined.

(** * The hooks *)

Lemma registered_list :
  Hooks.registered
  = [ ("canvasPan", Hooks.CanvasPanCallback);
      ("renderSceneConfig", Hooks.RenderSceneConfigCallback);
      ("updateScene", Hooks.UpdateSceneCallback);
      ("renderPinCushionHUD", Hooks.RenderHUDCallback "pin-cushion-hud");
      ("renderPoiTpHUD", Hooks.RenderHUDCallback "poi-tp-ctx-menu") ].
Proof. reflexivity. Qed.

(** X17: [createHudHooks] wires every known HUD's render hook to [renderHUD]
    with that HUD's own element id, and to nothing else: firing the hook of
    a HUD is one [renderHUD] of its element, and firing a hook name the
    module never registered changes nothing. *)
Theorem hud_hooks_route (w : World) :
  (forall hud, hud ∈ PinFixer.huds ->
     Hooks.callHudHook (hook hud) w = PinFixer.renderHUD w (id hud))
  /\ (forall name, name ∉ (fst <$> Hooks.registered) ->
        Hooks.callHudHook name w = w).
Proof.
  split.
  - intros hud. unfold PinFixer.huds. rewrite !elem_of_cons, elem_of_nil.
    intros [->|[->|[]]]; reflexivity.
  - intros name Hname. unfold Hooks.callHudHook. rewrite registered_list in *.
    cbn [fmap list_fmap fst] in Hname.
    assert (Hne : forall n,
              n ∈ ["canvasPan"; "renderSceneConfig"; "updateScene";
                   "renderPinCushionHUD"; "renderPoiTpHUD"] ->
              String.eqb n name = false).
    { intros n Hn. apply String.eqb_neq. intros ->. contradiction. }
    cbn [foldl fst snd].
    rewrite !Hne; [reflexivity|..]; rewrite !elem_of_cons; auto 10.
Qed.

Lemma hud_hooks_route_witness :
  let w := scene_enabled cfg_shrinking in
  {| hook := "renderPoiTpHUD"; id := "poi-tp-ctx-menu" |} ∈ PinFixer.huds
  /\ PinFixer.enabled w = true
  /\ document w !! "poi-tp-ctx-menu" = Some (hud_element (CssScale 0.5))
  /\ Hooks.callHudHook "renderPoiTpHUD" w
     = PinFixer.renderHUD w "poi-tp-ctx-menu"
  /\ document (Hooks.callHudHook "renderPoiTpHUD"
                 (set_pinfix_field w "hudScale" (JsNum 3)))
       !! "poi-tp-ctx-menu"
     = Some (hud_element (CssScale 1.5))
  /\ document (Hooks.callHudHook "renderPoiTpHUD"
                 (set_pinfix_field w "hudScale" (JsNum 3)))
       !! "pin-cushion-hud"
     = Some (hud_element (CssScale 0.5)).
Proof.
  cbv zeta.
  assert (Hin : {| hook := "renderPoiTpHUD"; id := "poi-tp-ctx-menu" |}
                ∈ PinFixer.huds).
  { unfold PinFixer.huds. rewrite !elem_of_cons. auto. }
  split; [exact Hin|]. split; [reflexivity|]. split; [reflexivity|].
  split; [|split].
  - pose proof (hud_hooks_route (scene_enabled cfg_shrinking)) as [Hroute _].
    apply (Hroute {| hook := "renderPoiTpHUD"; id := "poi-tp-ctx-menu" |}).
    exact Hin.
  - pose proof (hud_hooks_route
                  (set_pinfix_field (scene_enabled cfg_shrinking)
                     "hudScale" (JsNum 3))) as [Hroute _].
    pose proof (Hroute {| hook := "renderPoiTpHUD"; id := "poi-tp-ctx-menu" |} Hin)
      as Hr.
    cbn [hook id] in Hr. rewrite Hr. vm_compute. reflexivity.
  - pose proof (hud_hooks_route
                  (set_pinfix_field (scene_enabled cfg_shrinking)
                     "hudScale" (JsNum 3))) as [Hroute _].
    pose proof (Hroute {| hook := "renderPoiTpHUD"; id := "poi-tp-ctx-menu" |} Hin)
      as Hr.
    cbn [hook id] in Hr. rewrite Hr. vm_compute. reflexivity.
Defined.
